(** * hwloc2nffg: the tree-to-graph reduction of [hwloc2nffg.cpp]

    A shallow embedding of [src/hwloc2nffg/src/hwloc2nffg.cpp]: the
    identifier allocator [ID], the classification predicates [network_sap]
    and [required_by_type], the naming function [get_node_name] and the
    recursive traversal [add_nodes], followed by the properties of the
    produced node and edge collections. *)

From Stdlib Require Import ZArith QArith Ascii String DecimalString DecimalPos DecimalN.
From stdpp Require Import gmap strings list fin_maps relations.

Local Open Scope Z_scope.
Local Set Warnings "-register-all".

(** ** Machine integers *)

(** [unsigned int] is 32 bits wide; arithmetic on it wraps around. *)
Definition UINT_WIDTH : Z := 32.
Definition UINT_MAX : Z := 2 ^ UINT_WIDTH - 1.
Definition wrap (z : Z) : Z := z mod 2 ^ UINT_WIDTH.

(** [std::to_string] on an [unsigned int]: its decimal digits. *)
Definition to_string (n : Z) : string :=
  NilZero.string_of_uint (N.to_uint (Z.to_N n)).

(** ** C strings *)

(** A [char *] is read up to its terminating NUL: [c_str s] is the text
    such a buffer holds when its bytes are [s] followed by NUL. *)
Fixpoint c_str (s : string) : string :=
  match s with
  | EmptyString => EmptyString
  | String c r => if decide (c = Ascii.zero) then EmptyString else String c (c_str r)
  end.

(** [tolower] of the C locale, on one byte. *)
Definition tolower (c : ascii) : ascii :=
  let n := N_of_ascii c in
  if ((65 <=? n) && (n <=? 90))%N then ascii_of_N (n + 32) else c.

Definition lowcode (c : ascii) : Z := Z.of_N (N_of_ascii (tolower c)).

Fixpoint lower (s : string) : string :=
  match s with
  | EmptyString => EmptyString
  | String c r => String (tolower c) (lower r)
  end.

(** [strcasecmp] of the C library: both strings are walked byte by byte,
    lower-cased, until they differ or the first one ends; the result is the
    difference of the last two bytes compared. The end of a string reads as
    the NUL byte. *)
Fixpoint strcasecmp (s1 s2 : string) : Z :=
  match s1, s2 with
  | EmptyString, EmptyString => 0
  | EmptyString, String b _ => 0 - lowcode b
  | String a _, EmptyString => lowcode a - 0
  | String a r1, String b r2 =>
      if lowcode a =? 0 then 0 - lowcode b
      else if lowcode a =? lowcode b then strcasecmp r1 r2
      else lowcode a - lowcode b
  end.

(** Two C strings match case-insensitively when their texts are equal once
    lower-cased. *)
Definition case_insensitive_match (s1 s2 : string) : Prop :=
  lower (c_str s1) = lower (c_str s2).


(** Decimal digits, and the strings made of them. *)
Definition is_digit (c : ascii) : bool :=
  ((48 <=? N_of_ascii c) && (N_of_ascii c <=? 57))%N.

Fixpoint all_digits (s : string) : bool :=
  match s with
  | EmptyString => true
  | String c r => is_digit c && all_digits r
  end.


(** ** Json::Value *)

(** The part of jsoncpp's [Json::Value] the program builds: null, signed
    and unsigned integers, reals (carried as the decimal literal of the
    source), strings, arrays and objects. An object keeps its members sorted by key,
    as the [std::map] inside jsoncpp does, one entry per key. *)
Inductive Json : Type :=
| JNull
| JInt (n : Z)
| JUInt (n : Z)
| JReal (q : Q)
| JString (s : string)
| JArray (l : list Json)
| JObject (l : list (string * Json)).

Fixpoint alist_set (k : string) (x : Json) (l : list (string * Json))
  : list (string * Json) :=
  match l with
  | [] => [(k, x)]
  | (k', y) :: r =>
      match String.compare k k' with
      | Eq => (k, x) :: r
      | Lt => (k, x) :: (k', y) :: r
      | Gt => (k', y) :: alist_set k x r
      end
  end.

Fixpoint alist_get (k : string) (l : list (string * Json)) : option Json :=
  match l with
  | [] => None
  | (k', y) :: r => if decide (k' = k) then Some y else alist_get k r
  end.

(** [v[k] = x]: a null value becomes an object first; any value that is
    neither null nor an object fails jsoncpp's assertion. *)
Definition json_set (k : string) (x : Json) (v : Json) : option Json :=
  match v with
  | JNull => Some (JObject [(k, x)])
  | JObject l => Some (JObject (alist_set k x l))
  | _ => None
  end.

(** [v.append(x)]: a null value becomes an array first; any value that is
    neither null nor an array fails jsoncpp's assertion. *)
Definition json_append (x : Json) (v : Json) : option Json :=
  match v with
  | JNull => Some (JArray [x])
  | JArray l => Some (JArray (l ++ [x]))
  | _ => None
  end.

(** Observers used in the statements: the member of an object under a key,
    and the elements of an array (a null value has none). *)
Definition json_get (k : string) (v : Json) : option Json :=
  match v with
  | JObject l => alist_get k l
  | _ => None
  end.

Definition json_elems (v : Json) : list Json :=
  match v with
  | JArray l => l
  | _ => []
  end.

Definition json_keys (v : Json) : list string :=
  match v with
  | JObject l => l.*1
  | _ => []
  end.

(** [Json::Value::empty()]: null, or an array or object without members. *)
Definition json_empty (v : Json) : bool :=
  match v with
  | JNull | JArray [] | JObject [] => true
  | _ => false
  end.

Definition is_array_or_null (v : Json) : Prop :=
  v = JNull ∨ ∃ l, v = JArray l.

Definition is_object_or_null (v : Json) : Prop :=
  v = JNull ∨ ∃ l, v = JObject l.


(** ** class ID *)

Record ID : Type := mkID {
  lastfreeid : Z;
  lastfreeidfortype : gmap string Z
}.

(** A default-constructed [ID]. *)
Definition ID_init : ID := mkID 0 ∅.

Definition get_next_id_for_type (nodetype : string) (id : ID) : Z * ID :=
  let m :=
    match lastfreeidfortype id !! nodetype with
    | None => <[nodetype := 0]> (lastfreeidfortype id)
    | Some _ => lastfreeidfortype id
    end in
  let n := default 0 (m !! nodetype) in
  (n, mkID (lastfreeid id) (<[nodetype := wrap (n + 1)]> m)).

Definition get_next_global_id (id : ID) : Z * ID :=
  (lastfreeid id, mkID (wrap (lastfreeid id + 1)) (lastfreeidfortype id)).

(** A request to the allocator, for the next global id or for the next id
    of a type label, and what the allocator answers and becomes. *)
Inductive request : Type :=
| ReqGlobal
| ReqType (nodetype : string).

Global Instance request_eq_dec : EqDecision request.
Proof. solve_decision. Defined.

Definition serve (r : request) (id : ID) : Z * ID :=
  match r with
  | ReqGlobal => get_next_global_id id
  | ReqType nodetype => get_next_id_for_type nodetype id
  end.

(** The allocator after a sequence of requests, served in order. *)
Definition serve_all (rs : list request) (id : ID) : ID :=
  foldl (λ i r, (serve r i).2) id rs.


(** ** The topology tree *)

(** Modelled from the spec: the node type tags of [hwloc.h], which is not
    part of the sources; the program itself names [HWLOC_OBJ_PU],
    [HWLOC_OBJ_CORE], [HWLOC_OBJ_MACHINE] and [HWLOC_OBJ_OS_DEVICE], the
    other tags are the remaining structural kinds (system, NUMA node,
    socket, cache, group, misc, bridge/bus, PCI device). *)
Inductive hwloc_obj_type_t : Type :=
| HWLOC_OBJ_SYSTEM
| HWLOC_OBJ_MACHINE
| HWLOC_OBJ_NODE
| HWLOC_OBJ_SOCKET
| HWLOC_OBJ_CACHE
| HWLOC_OBJ_CORE
| HWLOC_OBJ_PU
| HWLOC_OBJ_GROUP
| HWLOC_OBJ_MISC
| HWLOC_OBJ_BRIDGE
| HWLOC_OBJ_PCI_DEVICE
| HWLOC_OBJ_OS_DEVICE.

Global Instance hwloc_obj_type_eq_dec : EqDecision hwloc_obj_type_t.
Proof. solve_decision. Defined.

(** One metadata entry of a node ([struct hwloc_obj_info_s]). *)
Record hwloc_obj_info_s : Type := mk_info {
  info_name : string;
  info_value : string
}.

Section Hwloc.

(** The type-specific attributes of a node are opaque to the program; only
    hwloc's own printer reads them. *)
Context {hwloc_obj_attr_u : Type}.

(** [struct hwloc_obj], with the fields the program reads. [os_index] is
    an [unsigned]; [(unsigned) -1] there means that the node has no index.
    [name] is a possibly null [char *]. [infos] holds the [infos_count]
    metadata entries and [children] the [arity] children, in order. *)
Inductive hwloc_obj : Type := mk_obj {
  type : hwloc_obj_type_t;
  os_index : Z;
  name : option string;
  attr : hwloc_obj_attr_u;
  infos : list hwloc_obj_info_s;
  children : list hwloc_obj
}.

(** hwloc's [hwloc_obj_type_snprintf (buf, size, obj, 0)]: the short
    label of a node's type. It belongs to the hwloc library. *)
Variable hwloc_obj_type_snprintf : hwloc_obj → string.

(** Check if node is a network sap *)
Definition network_sap (node : hwloc_obj) : bool :=
  if decide (type node = HWLOC_OBJ_OS_DEVICE) then
    existsb (λ i, strcasecmp (info_name i) "address" =? 0) (infos node)
  else false.

(** Check if node is required (based on node's type) *)
Definition required_by_type (node : hwloc_obj) : bool :=
  if decide (type node = HWLOC_OBJ_PU) then true
  else if decide (type node = HWLOC_OBJ_OS_DEVICE) then network_sap node
  else false.

Definition get_node_type (obj : hwloc_obj) : string :=
  hwloc_obj_type_snprintf obj.

Definition get_node_name (obj : hwloc_obj) (id : ID) : string * ID :=
  let by_type :=
    let type_ := get_node_type obj in
    if bool_decide (type obj = HWLOC_OBJ_PU ∨ type obj = HWLOC_OBJ_CORE ∨
                    type obj = HWLOC_OBJ_MACHINE)
       && bool_decide (os_index obj ≠ UINT_MAX)
    then (type_ +:+ "#" +:+ to_string (os_index obj), id)
    else
      let '(n, id') := get_next_id_for_type type_ id in
      (type_ +:+ "!" +:+ to_string n, id') in
  match name obj with
  | Some s => if network_sap obj then (s, id) else by_type
  | None => by_type
  end.

(** ** The state the traversal works on *)

(** [add_nodes] receives the allocator and the three output collections by
    reference; [Env] is that shared state. A computation either fails (an
    assertion of jsoncpp) or returns a value and the next state. *)
Record Env : Type := mkEnv {
  env_id : ID;
  node_infras : Json;
  node_saps : Json;
  node_edges : Json
}.

Definition M (A : Type) : Type := Env → option (A * Env).

Definition ret {A} (a : A) : M A := λ st, Some (a, st).

Definition bind {A B} (m : M A) (f : A → M B) : M B :=
  λ st, match m st with
        | Some (a, st') => f a st'
        | None => None
        end.

Definition lift {A} (o : option A) : M A :=
  λ st, match o with
        | Some a => Some (a, st)
        | None => None
        end.

Notation "'let*' x ':=' m 'in' k" := (bind m (λ x, k))
  (at level 10, x name, m at level 100, k at level 200, only parsing).

Fixpoint foldM {A B} (f : B → A → M B) (l : list A) (b : B) : M B :=
  match l with
  | [] => ret b
  | a :: r => let* b' := f b a in foldM f r b'
  end.

(** [id.get_next_global_id()] *)
Definition next_global_id : M Z :=
  λ st, let '(n, i) := get_next_global_id (env_id st) in
        Some (n, mkEnv i (node_infras st) (node_saps st) (node_edges st)).

(** [get_node_name(obj, id)] *)
Definition node_name_of (obj : hwloc_obj) : M string :=
  λ st, let '(s, i) := get_node_name obj (env_id st) in
        Some (s, mkEnv i (node_infras st) (node_saps st) (node_edges st)).

(** [node_infras.append(x)], [node_saps.append(x)], [node_edges.append(x)] *)
Definition append_node_infras (x : Json) : M unit :=
  λ st, v ← json_append x (node_infras st);
        Some ((), mkEnv (env_id st) v (node_saps st) (node_edges st)).

Definition append_node_saps (x : Json) : M unit :=
  λ st, v ← json_append x (node_saps st);
        Some ((), mkEnv (env_id st) (node_infras st) v (node_edges st)).

Definition append_node_edges (x : Json) : M unit :=
  λ st, v ← json_append x (node_edges st);
        Some ((), mkEnv (env_id st) (node_infras st) (node_saps st) v).

(** ** add_nodes *)

(** [typedef deque<pair<unsigned int, string>*> NodePorts] *)
Definition NodePorts : Type := list (Z * string).

Definition is_nil {A} (l : list A) : bool :=
  match l with
  | [] => true
  | _ => false
  end.

(** The body of the innermost loop of [add_nodes] (lines 151-166): one
    edge from [node_name] to the port [pit] of a child, and the source port
    appended to [ports]. *)
Definition add_edge (node_name : string) (ports : Json) (pit : Z * string) : M Json :=
  let* edge_id := next_global_id in
  let* edge := lift (json_set "id" (JUInt edge_id) JNull) in
  let* edge := lift (json_set "src_node" (JString node_name) edge) in
  let* port_gid := next_global_id in
  let* edge := lift (json_set "src_port" (JUInt port_gid) edge) in
  let* edge := lift (json_set "dst_node" (JString pit.2) edge) in
  let* edge := lift (json_set "dst_port" (JUInt pit.1) edge) in
  let* edge := lift (json_set "delay" (JReal (1 # 10)) edge) in
  let* edge := lift (json_set "bandwidth" (JInt 1000) edge) in
  let* _ := append_node_edges edge in
  let* portid := lift (json_set "id" (JUInt port_gid) JNull) in
  lift (json_append portid ports).

(** The statement under [if (!allports->empty() || required_by_type(obj))]
    (lines 139-221): [obj] becomes a node of the output. *)
Definition materialize (obj : hwloc_obj) (allports : list NodePorts) : M (option NodePorts) :=
  let* node_name := node_name_of obj in
  (* the outer [node] of line 139 is written and never read *)
  let* node := lift (json_set "name" (JString node_name) JNull) in
  let* node := lift (json_set "id" (JString node_name) node) in
  let* ports :=
    (if negb (is_nil allports)
     then foldM (λ ports ait, foldM (add_edge node_name) ait ports) allports JNull
     else ret JNull) in
  let* port_gid := next_global_id in
  let* portid := lift (json_set "id" (JUInt port_gid) JNull) in
  let* ports := lift (json_append portid ports) in
  let* _ :=
    (if network_sap obj then
       let* sap := lift (json_set "name" (JString node_name) JNull) in
       let* sap := lift (json_set "id" (JString node_name) sap) in
       let* sap := lift (json_set "ports" ports sap) in
       append_node_saps sap
     else
       let* node := lift (json_set "name" (JString node_name) JNull) in
       let* node := lift (json_set "id" (JString node_name) node) in
       let* node := lift (json_set "ports" ports node) in
       let* node := lift (json_set "domain" (JString "INTERNAL") node) in
       let* node :=
         (if decide (type obj = HWLOC_OBJ_PU) then
            let* supported := lift (json_append (JString "headerDecompressor") JNull) in
            let* node := lift (json_set "type" (JString "EE") node) in
            let* node := lift (json_set "supported" supported node) in
            let* res := lift (json_set "cpu" (JInt 1) JNull) in
            let* res := lift (json_set "mem" (JInt 32000) res) in
            let* res := lift (json_set "storage" (JInt 150) res) in
            let* res := lift (json_set "delay" (JReal (1 # 2)) res) in
            let* res := lift (json_set "bandwidth" (JInt 1000) res) in
            lift (json_set "resources" res node)
          else
            let* node := lift (json_set "type" (JString "SDN-SWITCH") node) in
            let* res := lift (json_set "cpu" (JInt 0) JNull) in
            let* res := lift (json_set "mem" (JInt 0) res) in
            let* res := lift (json_set "storage" (JInt 0) res) in
            let* res := lift (json_set "delay" (JReal (1 # 2)) res) in
            let* res := lift (json_set "bandwidth" (JInt 1000) res) in
            lift (json_set "resources" res node)) in
       append_node_infras node) in
  ret (Some [(port_gid, node_name)]).

(** Process nodes. The children are visited in order, each with the state
    its predecessor left; a child that returns no ports (NULL) adds nothing
    to [allports]. The [topology] handle is passed along and never used. *)
Fixpoint add_nodes (obj : hwloc_obj) (depth : Z) {struct obj} : M (option NodePorts) :=
  let* allports :=
    (fix children_loop (cs : list hwloc_obj) : M (list NodePorts) :=
       match cs with
       | [] => ret []
       | c :: cs' =>
           let* ports := add_nodes c (depth + 1) in
           let* rest := children_loop cs' in
           ret (match ports with
                | Some p => p :: rest
                | None => rest
                end)
       end) (children obj) in
  if negb (is_nil allports) || required_by_type obj
  then materialize obj allports
  else ret None.

(** The loop over the children of [add_nodes], on its own. *)
Definition add_children (cs : list hwloc_obj) (depth : Z) : M (list NodePorts) :=
  (fix children_loop (cs : list hwloc_obj) : M (list NodePorts) :=
     match cs with
     | [] => ret []
     | c :: cs' =>
         let* ports := add_nodes c (depth + 1) in
         let* rest := children_loop cs' in
         ret (match ports with
              | Some p => p :: rest
              | None => rest
              end)
     end) cs.

(** ** add_topology_tree *)

(** [add_parameters]: [nodename] is what [uname] reports for the host. *)
Definition add_parameters (nodename : string) (root : Json) : option Json :=
  root ← json_set "id" (JString nodename) root;
  root ← json_set "name" (JString ("NFFG-" +:+ nodename)) root;
  json_set "version" (JString "1.0") root.

(** The state [add_topology_tree] starts the traversal with: a fresh
    allocator and three null collections. *)
Definition Env_init : Env := mkEnv ID_init JNull JNull JNull.

(** [add_topology_tree], from the root object hwloc has loaded. *)
Definition add_topology_tree (nodename : string) (root_obj : hwloc_obj)
    (root : Json) : option Json :=
  parameters ← add_parameters nodename JNull;
  root ← json_set "parameters" parameters root;
  '(_, st) ← add_nodes root_obj 0 Env_init;
  root ← json_set "node_saps" (node_saps st) root;
  root ← json_set "node_infras" (node_infras st) root;
  json_set "edge_links" (node_edges st) root.

(** ** Notions used in the statements *)

(** The records the traversal writes, as values. *)
Definition port_json (p : Z) : Json := JObject [("id", JUInt p)].

Definition edge_json (edge_id : Z) (src_node : string) (src_port : Z)
    (dst : Z * string) : Json :=
  JObject [("bandwidth", JInt 1000); ("delay", JReal (1 # 10));
           ("dst_node", JString dst.2); ("dst_port", JUInt dst.1);
           ("id", JUInt edge_id); ("src_node", JString src_node);
           ("src_port", JUInt src_port)].

Definition sap_json (node_name : string) (ports : list Json) : Json :=
  JObject [("id", JString node_name); ("name", JString node_name);
           ("ports", JArray ports)].

Definition resources_json (cpu mem storage : Z) : Json :=
  JObject [("bandwidth", JInt 1000); ("cpu", JInt cpu); ("delay", JReal (1 # 2));
           ("mem", JInt mem); ("storage", JInt storage)].

Definition ee_json (node_name : string) (ports : list Json) : Json :=
  JObject [("domain", JString "INTERNAL"); ("id", JString node_name);
           ("name", JString node_name); ("ports", JArray ports);
           ("resources", resources_json 1 32000 150);
           ("supported", JArray [JString "headerDecompressor"]);
           ("type", JString "EE")].

Definition switch_json (node_name : string) (ports : list Json) : Json :=
  JObject [("domain", JString "INTERNAL"); ("id", JString node_name);
           ("name", JString node_name); ("ports", JArray ports);
           ("resources", resources_json 0 0 0);
           ("type", JString "SDN-SWITCH")].

(** The member of an object under a key, null when there is none (the
    const [operator[]] of jsoncpp). *)
Definition json_field (k : string) (v : Json) : Json :=
  default JNull (json_get k v).

(** A collection after [l] has been appended to it, one by one. *)
Definition json_extend (v : Json) (l : list Json) : Json :=
  match l with
  | [] => v
  | _ => JArray (json_elems v ++ l)
  end.

(** The edges and source ports a node writes for the ports [stubs] of its
    children when the global counter stands at [c]: the k-th edge takes the
    identifier [c + 2k] and its source port [c + 2k + 1]. *)
Definition edges_of (node_name : string) (c : Z) (stubs : list (Z * string)) : list Json :=
  imap (λ k pit, edge_json (wrap (c + 2 * Z.of_nat k)) node_name
                           (wrap (c + 2 * Z.of_nat k + 1)) pit) stubs.

Definition src_ports_of (c : Z) (n : nat) : list Z :=
  (λ k : nat, wrap (c + 2 * Z.of_nat k + 1)) <$> seq 0 n.

(** The result of [materialize] spelled out: the name, the port list, the
    record appended to one of the node collections and the edges. *)
Definition materialized (obj : hwloc_obj) (allports : list NodePorts) (st : Env)
  : option NodePorts * Env :=
  let '(nm, i) := get_node_name obj (env_id st) in
  let c := lastfreeid i in
  let stubs := concat allports in
  let n := length stubs in
  let up := wrap (c + 2 * Z.of_nat n) in
  let ports := port_json <$> (src_ports_of c n ++ [up]) in
  let i' := mkID (wrap (c + 2 * Z.of_nat n + 1)) (lastfreeidfortype i) in
  let edges := json_extend (node_edges st) (edges_of nm c stubs) in
  (Some [(up, nm)],
   if network_sap obj
   then mkEnv i' (node_infras st) (json_extend (node_saps st) [sap_json nm ports]) edges
   else mkEnv i' (json_extend (node_infras st)
                    [if decide (type obj = HWLOC_OBJ_PU)
                     then ee_json nm ports else switch_json nm ports])
              (node_saps st) edges).

(** The name [add_nodes] gives to [obj] when it materializes it in state
    [st]. *)
Definition given_name (obj : hwloc_obj) (st : Env) : string :=
  (get_node_name obj (env_id st)).1.

(** The test of [get_node_name] for a name of the form [type#index]: a
    processing unit, core or machine with a valid OS index. *)
Definition named_by_index (obj : hwloc_obj) : bool :=
  bool_decide (type obj = HWLOC_OBJ_PU ∨ type obj = HWLOC_OBJ_CORE ∨
               type obj = HWLOC_OBJ_MACHINE)
  && bool_decide (os_index obj ≠ UINT_MAX).


(** The number of nodes of a tree, the root included, that pass a test. *)
Fixpoint count_nodes (P : hwloc_obj → bool) (obj : hwloc_obj) : nat :=
  ((if P obj then 1 else 0) +
   foldr (λ c n, count_nodes P c + n) 0 (children obj))%nat.

Definition is_pu (obj : hwloc_obj) : bool :=
  bool_decide (type obj = HWLOC_OBJ_PU).

(** An infrastructure record of type "EE". *)
Definition is_ee (r : Json) : bool :=
  match json_get "type" r with
  | Some (JString s) => bool_decide (s = "EE")
  | _ => false
  end.


(** The test of [get_node_name] for a name of the form [type!n]: neither
    a service access point with a name nor a node named by its index. *)
Definition named_by_counter (obj : hwloc_obj) : bool :=
  negb (network_sap obj && bool_decide (is_Some (name obj))) &&
  negb (named_by_index obj).

(** The value the counter of a type label stands at. *)
Definition type_counter (id : ID) (nodetype : string) : Z :=
  default 0 (lastfreeidfortype id !! nodetype).


(** The states the traversal runs in: each collection is null or an array,
    and the global counter is an [unsigned int]. *)
Definition wf_env (st : Env) : Prop :=
  is_array_or_null (node_infras st) ∧ is_array_or_null (node_saps st) ∧
  is_array_or_null (node_edges st) ∧ 0 ≤ lastfreeid (env_id st) < 2 ^ UINT_WIDTH.

(** A node survives when it is required or one of its descendants is. *)
Fixpoint survives (obj : hwloc_obj) : bool :=
  required_by_type obj || existsb survives (children obj).

(** The number of identifiers a run on [obj] draws from the global
    counter: every node that survives draws one for its own port and two
    (an edge and a source port) for each child that survives. *)
Fixpoint drawn (obj : hwloc_obj) : Z :=
  foldr (λ c n, drawn c + n) 0 (children obj) +
  (if survives obj
   then 2 * Z.of_nat (length (filter (λ c, survives c = true) (children obj))) + 1
   else 0).

(** All port ids of the node records of a collection, all ids of the edge
    records, and both together for a state. *)
Definition port_ids (nodes : Json) : list Json :=
  r ← json_elems nodes; json_field "id" <$> json_elems (json_field "ports" r).

Definition edge_ids (edges : Json) : list Json :=
  json_field "id" <$> json_elems edges.

Definition all_ids (st : Env) : list Json :=
  port_ids (node_saps st) ++ port_ids (node_infras st) ++ edge_ids (node_edges st).

(** The identifiers the global counter returns on [n] successive calls
    when it stands at [c]. *)
Definition ids_from (c n : Z) : list Json :=
  (λ k, JUInt (wrap k)) <$> seqZ c n.


(** The node records of a state, and the names they carry. *)
Definition node_records (st : Env) : list Json :=
  json_elems (node_saps st) ++ json_elems (node_infras st).

Definition node_names (st : Env) : list Json :=
  json_field "name" <$> node_records st.

(** A node record carries the same string as id and as name. *)
Definition id_is_name (r : Json) : Prop :=
  ∃ n, json_get "id" r = Some (JString n) ∧ json_get "name" r = Some (JString n).

(** [has_node st n]: a node record of [st] has [n] as id and as name. *)
Definition has_node (st : Env) (n : string) : Prop :=
  ∃ r, r ∈ node_records st ∧
       json_get "id" r = Some (JString n) ∧ json_get "name" r = Some (JString n).

(** Both ends of an edge record are such nodes. *)
Definition endpoints_named (st : Env) (e : Json) : Prop :=
  (∃ n, json_get "src_node" e = Some (JString n) ∧ has_node st n) ∧
  (∃ n, json_get "dst_node" e = Some (JString n) ∧ has_node st n).

Definition records_consistent (st : Env) : Prop :=
  Forall id_is_name (node_records st) ∧
  Forall (endpoints_named st) (json_elems (node_edges st)).

(** [has_port st n p]: a node record of [st] named [n] lists the port [p]. *)
Definition has_port (st : Env) (n : string) (p : Z) : Prop :=
  ∃ r, r ∈ node_records st ∧ json_get "name" r = Some (JString n) ∧
       port_json p ∈ json_elems (json_field "ports" r).

(** Both ends of an edge record are ports listed by the node they name. *)
Definition ports_listed (st : Env) (e : Json) : Prop :=
  (∃ n p, json_get "src_node" e = Some (JString n) ∧
          json_get "src_port" e = Some (JUInt p) ∧ has_port st n p) ∧
  (∃ n p, json_get "dst_node" e = Some (JString n) ∧
          json_get "dst_port" e = Some (JUInt p) ∧ has_port st n p).


(** [graft base st]: the state [st] with its three collections moved
    behind those of [base]. *)
Definition graft (base st : Env) : Env :=
  mkEnv (env_id st)
        (json_extend (node_infras base) (json_elems (node_infras st)))
        (json_extend (node_saps base) (json_elems (node_saps st)))
        (json_extend (node_edges base) (json_elems (node_edges st))).

(** [shift_json k v]: the value [v] with every unsigned integer in it (in
    the output these are the ids of the ports and edges) moved on by [k],
    as an [unsigned int]; strings, the other numbers and the order of
    elements and members stay. *)
Fixpoint shift_json (k : Z) (v : Json) : Json :=
  match v with
  | JUInt n => JUInt (wrap (n + k))
  | JArray l => JArray (shift_json k <$> l)
  | JObject l => JObject ((λ m, (m.1, shift_json k m.2)) <$> l)
  | _ => v
  end.

Definition shift_stub (k : Z) (stub : Z * string) : Z * string :=
  (wrap (stub.1 + k), stub.2).

Definition shift_ports (k : Z) (ports : NodePorts) : NodePorts :=
  shift_stub k <$> ports.

Definition shift_env (k : Z) (st : Env) : Env :=
  mkEnv (mkID (wrap (lastfreeid (env_id st) + k)) (lastfreeidfortype (env_id st)))
        (shift_json k (node_infras st)) (shift_json k (node_saps st))
        (shift_json k (node_edges st)).

(** The state of a run with a new allocator and three null collections,
    the global counter of the allocator standing at [c]; [Env_init] is
    [Env_at 0]. *)
Definition Env_at (c : Z) : Env := mkEnv (mkID (wrap c) ∅) JNull JNull JNull.



(** The shapes of the records: a SAP record and an infrastructure record
    list at least one port, each an [unsigned int]; an infrastructure
    record is of one of the two types. *)
Definition port_list (ports : list Z) : Prop :=
  ports ≠ [] ∧ Forall (λ p, 0 ≤ p < 2 ^ UINT_WIDTH) ports.

Definition sap_record (r : Json) : Prop :=
  ∃ n ports, port_list ports ∧ r = sap_json n (port_json <$> ports).

Definition infra_record (r : Json) : Prop :=
  ∃ n ports, port_list ports ∧
    (r = ee_json n (port_json <$> ports) ∨ r = switch_json n (port_json <$> ports)).

Definition edge_record (e : Json) : Prop :=
  ∃ edge_id src_node src_port dst, e = edge_json edge_id src_node src_port dst.

Definition output_shaped (st : Env) : Prop :=
  Forall sap_record (json_elems (node_saps st)) ∧
  Forall infra_record (json_elems (node_infras st)) ∧
  Forall edge_record (json_elems (node_edges st)).


(** [extends st st']: [st'] is [st] with records appended to its three
    collections. *)
Definition extends (st st' : Env) : Prop :=
  ∃ infras saps edges,
    node_infras st' = json_extend (node_infras st) infras ∧
    node_saps st' = json_extend (node_saps st) saps ∧
    node_edges st' = json_extend (node_edges st) edges.

(** The ports the children hand to their parent are each a single pair. *)
Definition single_stub (ports : NodePorts) : Prop :=
  ∃ p n, ports = [(p, n)].

(** The node of the tree at a position: a position is the list of child
    indices that leads to the node from the root. *)
Fixpoint node_at (obj : hwloc_obj) (pos : list nat) : option hwloc_obj :=
  match pos with
  | [] => Some obj
  | i :: pos' =>
      match children obj !! i with
      | Some c => node_at c pos'
      | None => None
      end
  end.

(** [call_at obj d st pos]: the call of [add_nodes] that the run of
    [add_nodes obj d] started in state [st] makes on the node at position
    [pos]: the node, the depth and the state the call starts in. The call
    on a child starts in the state the children before it have left. *)
Fixpoint call_at (obj : hwloc_obj) (d : Z) (st : Env) (pos : list nat)
  : option (hwloc_obj * Z * Env) :=
  match pos with
  | [] => Some (obj, d, st)
  | i :: pos' =>
      match children obj !! i with
      | Some c =>
          match add_children (take i (children obj)) d st with
          | Some (_, sti) => call_at c (d + 1) sti pos'
          | None => None
          end
      | None => None
      end
  end.

(** The port and the name that call returns: the upward port of the node
    at [pos], when the node is materialized. *)
Definition stub_at (obj : hwloc_obj) (d : Z) (st : Env) (pos : list nat)
  : option (Z * string) :=
  match call_at obj d st pos with
  | Some (o, d', s) =>
      match add_nodes o d' s with
      | Some (Some [stub], _) => Some stub
      | _ => None
      end
  | None => None
  end.

(** [edge_joins st parent child]: an edge record of [st] leads from the
    node that returned [parent] to the node that returned [child]. It
    names both nodes, ends at the upward port of the child, which a record
    with the child's name lists, and starts at a port of the record that
    carries the parent's name and lists the parent's upward port. *)
Definition edge_joins (st : Env) (parent child : Z * string) : Prop :=
  ∃ e r rc src_port,
    e ∈ json_elems (node_edges st) ∧
    json_get "src_node" e = Some (JString parent.2) ∧
    json_get "src_port" e = Some (JUInt src_port) ∧
    json_get "dst_node" e = Some (JString child.2) ∧
    json_get "dst_port" e = Some (JUInt child.1) ∧
    r ∈ node_records st ∧
    json_get "name" r = Some (JString parent.2) ∧
    port_json src_port ∈ json_elems (json_field "ports" r) ∧
    port_json parent.1 ∈ json_elems (json_field "ports" r) ∧
    rc ∈ node_records st ∧
    json_get "name" rc = Some (JString child.2) ∧
    port_json child.1 ∈ json_elems (json_field "ports" rc).

(** [tree_edge root d st0 st pos pos']: in the run of [add_nodes root d]
    from [st0], the node at [pos'] is a child of the node at [pos], both
    are materialized, and the output [st] holds an edge that joins them.
    Nodes are told apart by their position in the tree, not by name. *)
Definition tree_edge (root : hwloc_obj) (d : Z) (st0 st : Env)
    (pos pos' : list nat) : Prop :=
  ∃ i parent child,
    pos' = pos ++ [i] ∧
    stub_at root d st0 pos = Some parent ∧
    stub_at root d st0 pos' = Some child ∧
    edge_joins st parent child.

End Hwloc.

(** ** Sample topologies *)

(** A rendering of type labels for the examples: hwloc prints "PU", "Core"
    and "Machine" for these types; the other labels stand for what it
    prints for buses and devices. *)
Definition sample_label (o : @hwloc_obj unit) : string :=
  match type o with
  | HWLOC_OBJ_PU => "PU"
  | HWLOC_OBJ_CORE => "Core"
  | HWLOC_OBJ_MACHINE => "Machine"
  | HWLOC_OBJ_BRIDGE => "Bus"
  | HWLOC_OBJ_OS_DEVICE => "Net"
  | _ => "Group"
  end.

Definition sample_pu (i : Z) : @hwloc_obj unit :=
  mk_obj HWLOC_OBJ_PU i None () [] [].

Definition sample_nic : @hwloc_obj unit :=
  mk_obj HWLOC_OBJ_OS_DEVICE UINT_MAX (Some "eth0") ()
         [mk_info "Address" "00:11:22:33:44:55"] [].

Definition sample_bus (cs : list (@hwloc_obj unit)) : @hwloc_obj unit :=
  mk_obj HWLOC_OBJ_BRIDGE UINT_MAX None () [] cs.

Definition sample_machine (cs : list (@hwloc_obj unit)) : @hwloc_obj unit :=
  mk_obj HWLOC_OBJ_MACHINE 0 None () [] cs.

(** A machine with a NIC behind one bus, two processing units behind a
    second one, and a third, empty bus. *)
Definition sample_topology : @hwloc_obj unit :=
  sample_machine [sample_bus [sample_nic];
                  sample_bus [sample_pu 3; sample_pu 4];
                  sample_bus []].

(** A full binary tree of groups over processing units, of height [h]. *)
Fixpoint full_tree (h : nat) : @hwloc_obj unit :=
  match h with
  | O => sample_pu 0
  | S k => mk_obj HWLOC_OBJ_GROUP UINT_MAX None () [] [full_tree k; full_tree k]
  end.

(** The run on the sample topology: what the loop over the children of the
    root returns, and what the whole run returns. *)
Definition sample_children_run : list NodePorts * Env :=
  Eval vm_compute in
    default ([], Env_init)
            (add_children sample_label (children sample_topology) 0 Env_init).

Definition sample_run : option NodePorts * Env :=
  Eval vm_compute in
    default (None, Env_init) (add_nodes sample_label sample_topology 0 Env_init).


(** * Properties *)

(** ** Machine integers and strings *)

Lemma wrap_range z : 0 ≤ wrap z < 2 ^ UINT_WIDTH.
Proof. unfold wrap. apply Z.mod_pos_bound. reflexivity. Qed.

Lemma wrap_small z : 0 ≤ z < 2 ^ UINT_WIDTH → wrap z = z.
Proof. intros. unfold wrap. by apply Z.mod_small. Qed.

Lemma wrap_succ z k : wrap (wrap z + k) = wrap (z + k).
Proof. unfold wrap. by rewrite Zplus_mod_idemp_l. Qed.

Lemma lowcode_zero a : lowcode a = 0 ↔ a = Ascii.zero.
Proof.
  split; [| by intros ->].
  destruct a as [[] [] [] [] [] [] [] []]; by vm_compute.
Qed.

Lemma lowcode_inj a b : lowcode a = lowcode b ↔ tolower a = tolower b.
Proof.
  unfold lowcode. split; [| by intros ->].
  intros H. apply N2Z.inj in H.
  by rewrite <- (ascii_N_embedding (tolower a)), H, ascii_N_embedding.
Qed.

Lemma strcasecmp_match s1 s2 :
  strcasecmp s1 s2 = 0 ↔ case_insensitive_match s1 s2.
Proof.
  unfold case_insensitive_match. revert s2.
  induction s1 as [| a r1 IH]; intros [| b r2]; simpl.
  - done.
  - destruct (decide (b = Ascii.zero)) as [Hb | Hb]; simpl.
    + by rewrite Hb.
    + split; [| done]. intros H. destruct Hb. apply lowcode_zero. lia.
  - destruct (decide (a = Ascii.zero)) as [Ha | Ha]; simpl.
    + by rewrite Ha.
    + split; [| done]. intros H. destruct Ha. apply lowcode_zero. lia.
  - destruct (Z.eqb_spec (lowcode a) 0) as [Ha | Ha].
    + apply lowcode_zero in Ha. rewrite decide_True by done.
      destruct (decide (b = Ascii.zero)) as [Hb | Hb]; simpl.
      * by rewrite Hb.
      * split; [| done]. intros H. destruct Hb. apply lowcode_zero. lia.
    + rewrite lowcode_zero in Ha. rewrite (decide_False (P := a = _)) by done.
      destruct (Z.eqb_spec (lowcode a) (lowcode b)) as [Hab | Hab].
      * assert (b ≠ Ascii.zero) as Hb.
        { intros ->. apply Ha, lowcode_zero. by rewrite Hab. }
        rewrite (decide_False (P := b = _)) by done. simpl.
        apply lowcode_inj in Hab. rewrite IH, Hab.
        split; [by intros -> | by intros [=]].
      * split; [lia |]. rewrite lowcode_inj in Hab.
        destruct (decide (b = Ascii.zero)); simpl; [done | by intros [=]].
Qed.

(** ** Json::Value *)

Lemma json_append_ok x v :
  is_array_or_null v → json_append x v = Some (JArray (json_elems v ++ [x])).
Proof. by intros [-> | [l ->]]. Qed.

Lemma json_extend_array_or_null v l :
  is_array_or_null v → is_array_or_null (json_extend v l).
Proof. intros H. destruct l; [done |]. right. by eexists. Qed.

Lemma json_elems_extend v l : json_elems (json_extend v l) = json_elems v ++ l.
Proof. destruct l; simpl; [by rewrite app_nil_r | done]. Qed.

Lemma json_extend_nil v : json_extend v [] = v.
Proof. done. Qed.

Lemma json_extend_app v l1 l2 :
  json_extend (json_extend v l1) l2 = json_extend v (l1 ++ l2).
Proof.
  destruct l1 as [| a l1]; [done |]. destruct l2 as [| b l2].
  - by rewrite app_nil_r.
  - simpl. by rewrite <- app_assoc.
Qed.

Section Theory.

Context {A : Type} (label : @hwloc_obj A → string).

Implicit Types (obj o : @hwloc_obj A) (cs : list (@hwloc_obj A)).
Implicit Types (st : Env) (d : Z) (allports : list NodePorts).

(** ** Induction on the topology tree *)

Lemma hwloc_obj_tree_ind (P : @hwloc_obj A → Prop) :
  (∀ obj, Forall P (children obj) → P obj) → ∀ obj, P obj.
Proof.
  intros step. fix IH 1. intros [t i n a inf cs]. apply step. simpl.
  induction cs as [| c cs IHcs]; constructor; [apply IH | apply IHcs].
Qed.

(** ** The monad *)

Lemma bind_Some {X Y} (m : M X) (f : X → M Y) st y st' :
  bind m f st = Some (y, st') ↔
  ∃ x s, m st = Some (x, s) ∧ f x s = Some (y, st').
Proof.
  unfold bind. split.
  - destruct (m st) as [[x s] |]; [eauto | done].
  - intros (x & s & -> & H). done.
Qed.

Lemma bind_run {X Y} (m : M X) (f : X → M Y) st x s :
  m st = Some (x, s) → bind m f st = f x s.
Proof. unfold bind. by intros ->. Qed.

(** ** Unfolding [add_nodes] *)

Lemma add_nodes_unfold obj d :
  add_nodes label obj d =
  bind (add_children label (children obj) d)
       (λ allports, if negb (is_nil allports) || required_by_type obj
                    then materialize label obj allports
                    else ret None).
Proof. by destruct obj. Qed.

Lemma add_children_nil d : add_children label [] d = ret [].
Proof. done. Qed.

Lemma add_children_cons (c : @hwloc_obj A) cs d :
  add_children label (c :: cs) d =
  bind (add_nodes label c (d + 1))
       (λ ports, bind (add_children label cs d)
                      (λ rest, ret (match ports with
                                    | Some p => p :: rest
                                    | None => rest
                                    end))).
Proof. done. Qed.

(** ** One step of the traversal *)

Lemma add_edge_run node_name ports pit st :
  is_array_or_null ports → is_array_or_null (node_edges st) →
  add_edge node_name ports pit st =
  let c := lastfreeid (env_id st) in
  Some (JArray (json_elems ports ++ [port_json (wrap (c + 1))]),
        mkEnv (mkID (wrap (c + 2)) (lastfreeidfortype (env_id st)))
              (node_infras st) (node_saps st)
              (JArray (json_elems (node_edges st) ++
                       [edge_json c node_name (wrap (c + 1)) pit]))).
Proof.
  intros Hp He. destruct st as [[c m] ni ns ne]. simpl in *.
  unfold add_edge, bind, next_global_id, lift, append_node_edges. simpl.
  rewrite (json_append_ok _ ne He). simpl.
  rewrite (json_append_ok _ ports Hp).
  rewrite wrap_succ. by replace (c + 1 + 1) with (c + 2) by lia.
Qed.

Lemma src_ports_of_S c0 n :
  src_ports_of c0 (S n) = wrap (c0 + 1) :: src_ports_of (c0 + 2) n.
Proof.
  unfold src_ports_of. simpl. f_equal; [f_equal; lia |].
  rewrite <- fmap_S_seq, <- list_fmap_compose. apply list_fmap_ext.
  intros _ k _. simpl. f_equal. lia.
Qed.


Lemma edges_of_cons node_name c0 pit stubs :
  edges_of node_name c0 (pit :: stubs) =
  edge_json (wrap c0) node_name (wrap (c0 + 1)) pit :: edges_of node_name (c0 + 2) stubs.
Proof.
  unfold edges_of. simpl. f_equal.
  - f_equal; f_equal; lia.
  - apply imap_ext. intros k x _. simpl. f_equal; f_equal; lia.
Qed.

Lemma length_edges_of node_name c0 stubs :
  length (edges_of node_name c0 stubs) = length stubs.
Proof. unfold edges_of. by rewrite length_imap. Qed.

Lemma add_edges_run node_name stubs : ∀ ports st c0,
  is_array_or_null ports → is_array_or_null (node_edges st) →
  lastfreeid (env_id st) = wrap c0 →
  foldM (add_edge node_name) stubs ports st =
  Some (json_extend ports (port_json <$> src_ports_of c0 (length stubs)),
        mkEnv (mkID (wrap (c0 + 2 * Z.of_nat (length stubs)))
                    (lastfreeidfortype (env_id st)))
              (node_infras st) (node_saps st)
              (json_extend (node_edges st) (edges_of node_name c0 stubs))).
Proof.
  induction stubs as [| pit stubs IH]; intros ports st c0 Hp He Hc.
  - destruct st as [[c m] ni ns ne]. simpl in *. unfold ret.
    rewrite Hc. do 5 f_equal. lia.
  - simpl foldM. rewrite (bind_run _ _ _ _ _ (add_edge_run _ _ _ _ Hp He)).
    rewrite (IH _ _ (c0 + 2)); cbn [env_id lastfreeid lastfreeidfortype node_infras
      node_saps node_edges json_elems length].
    + rewrite Hc, src_ports_of_S, edges_of_cons, !wrap_succ.
      f_equal. f_equal.
      * rewrite fmap_cons. cbn [json_extend json_elems].
        destruct (src_ports_of (c0 + 2) (length stubs)); simpl;
          [done | by rewrite <- app_assoc].
      * f_equal; [f_equal; f_equal; lia |].
        destruct (edges_of node_name (c0 + 2) stubs); simpl;
          [done | by rewrite <- app_assoc].
    + right. by eexists.
    + right. by eexists.
    + by rewrite Hc, wrap_succ.
Qed.


Lemma foldM_app {X Y} (f : Y → X → M Y) (l1 l2 : list X) (y : Y) st :
  foldM f (l1 ++ l2) y st = bind (foldM f l1 y) (foldM f l2) st.
Proof.
  revert y st. induction l1 as [| x l1 IH]; intros y st; simpl; [done |].
  unfold bind. destruct (f y x st) as [[y' st'] |]; [| done].
  rewrite IH. done.
Qed.

Lemma foldM_concat {X Y} (f : Y → X → M Y) (ls : list (list X)) (y : Y) st :
  foldM (λ y l, foldM f l y) ls y st = foldM f (concat ls) y st.
Proof.
  revert y st. induction ls as [| l ls IH]; intros y st; simpl; [done |].
  rewrite foldM_app. unfold bind.
  destruct (foldM f l y st) as [[y' st'] |]; [apply IH | done].
Qed.

Lemma get_node_name_lastfreeid obj i :
  lastfreeid (get_node_name label obj i).2 = lastfreeid i.
Proof.
  unfold get_node_name, get_next_id_for_type.
  destruct (name obj), (network_sap obj); simpl; try done;
    by destruct (_ && _).
Qed.

Lemma materialize_run obj allports st :
  wf_env st →
  materialize label obj allports st = Some (materialized label obj allports st).
Proof.
  intros (Hi & Hs & He & Hc).
  unfold materialize, materialized.
  pose proof (get_node_name_lastfreeid obj (env_id st)) as Hlf.
  unfold bind at 1. unfold node_name_of at 1.
  destruct (get_node_name label obj (env_id st)) as [nm i]. simpl in Hlf.
  unfold bind at 1. unfold lift at 1. cbn [json_set].
  unfold bind at 1. unfold lift at 1. cbn [json_set].
  assert ((if negb (is_nil allports)
           then foldM (λ ports ait, foldM (add_edge nm) ait ports) allports JNull
           else ret JNull)
            (mkEnv i (node_infras st) (node_saps st) (node_edges st)) =
          Some (json_extend JNull (port_json <$> src_ports_of (lastfreeid i)
                                               (length (concat allports))),
                mkEnv (mkID (wrap (lastfreeid i +
                                   2 * Z.of_nat (length (concat allports))))
                            (lastfreeidfortype i))
                      (node_infras st) (node_saps st)
                      (json_extend (node_edges st)
                                   (edges_of nm (lastfreeid i) (concat allports)))))
    as Hloop.
  { transitivity (foldM (λ ports ait, foldM (add_edge nm) ait ports) allports JNull
                    (mkEnv i (node_infras st) (node_saps st) (node_edges st)));
      [by destruct allports |].
    rewrite foldM_concat.
    rewrite (add_edges_run nm (concat allports) JNull _ (lastfreeid i)); simpl;
      [done | by left | done |].
    rewrite Hlf. symmetry. by apply wrap_small. }
  rewrite (bind_run _ _ _ _ _ Hloop). clear Hloop.
  set (n := length (concat allports)).
  set (c := lastfreeid i).
  unfold bind at 1. unfold next_global_id at 1. cbn [env_id get_next_global_id
    lastfreeid lastfreeidfortype node_infras node_saps node_edges].
  unfold bind at 1. unfold lift at 1. cbn [json_set].
  unfold bind at 1. unfold lift at 1.
  rewrite json_append_ok by (apply json_extend_array_or_null; by left).
  rewrite json_elems_extend. cbn [json_elems app].
  rewrite wrap_succ.
  replace (port_json <$> src_ports_of c n ++ [wrap (c + 2 * Z.of_nat n)])
    with ((port_json <$> src_ports_of c n) ++
          [JObject [("id", JUInt (wrap (c + 2 * Z.of_nat n)))]])
    by (by rewrite fmap_app).
  destruct (network_sap obj).
  - unfold bind, lift, append_node_saps, ret. simpl.
    rewrite (json_append_ok _ _ Hs). done.
  - destruct (decide (type obj = HWLOC_OBJ_PU)).
    + unfold bind, lift, append_node_infras, ret. simpl.
      rewrite (json_append_ok _ _ Hi). done.
    + unfold bind, lift, append_node_infras, ret. simpl.
      rewrite (json_append_ok _ _ Hi). done.
Qed.

(** ** Runs of the traversal *)

Lemma extends_refl st : extends st st.
Proof. by exists [], [], []. Qed.

Lemma extends_trans st1 st2 st3 :
  extends st1 st2 → extends st2 st3 → extends st1 st3.
Proof.
  intros (i1 & s1 & e1 & Hi1 & Hs1 & He1) (i2 & s2 & e2 & Hi2 & Hs2 & He2).
  exists (i1 ++ i2), (s1 ++ s2), (e1 ++ e2).
  rewrite Hi2, Hs2, He2, Hi1, Hs1, He1, !json_extend_app. done.
Qed.

Lemma materialized_extends obj allports st :
  extends st (materialized label obj allports st).2.
Proof.
  unfold materialized. destruct (get_node_name label obj (env_id st)) as [nm i].
  destruct (network_sap obj); simpl.
  - by eexists [], [_], _.
  - by eexists [_], [], _.
Qed.

Lemma materialized_wf obj allports st :
  wf_env st → wf_env (materialized label obj allports st).2.
Proof.
  intros (Hi & Hs & He & Hc). unfold materialized.
  destruct (get_node_name label obj (env_id st)) as [nm i].
  destruct (network_sap obj);
    (split; [| split; [| split; [| apply wrap_range]]]); simpl;
    try done; try (by apply json_extend_array_or_null); right; by eexists.
Qed.

Lemma materialized_stub obj allports st :
  ∃ p n, (materialized label obj allports st).1 = Some [(p, n)].
Proof.
  unfold materialized. destruct (get_node_name label obj (env_id st)) as [nm i].
  by eexists _, _.
Qed.

Lemma survives_unfold obj :
  survives obj = required_by_type obj || existsb survives (children obj).
Proof. by destruct obj. Qed.

(** A subtree without a required node is left without a trace. *)
Lemma add_nodes_pruned obj : ∀ d st,
  survives obj = false → add_nodes label obj d st = Some (None, st).
Proof.
  induction obj as [obj IH] using hwloc_obj_tree_ind. intros d st Hs.
  rewrite survives_unfold in Hs. apply orb_false_iff in Hs as [Hreq Hcs].
  rewrite add_nodes_unfold.
  assert (add_children label (children obj) d st = Some ([], st)) as Hch.
  { induction (children obj) as [| c cs IHcs]; [done |].
    simpl in Hcs. apply orb_false_iff in Hcs as [Hc Hcs].
    apply Forall_cons in IH as [IHc IH].
    rewrite add_children_cons.
    rewrite (bind_run _ _ _ _ _ (IHc _ _ Hc)).
    by rewrite (bind_run _ _ _ _ _ (IHcs IH Hcs)). }
  rewrite (bind_run _ _ _ _ _ Hch). by rewrite Hreq.
Qed.

(** Every run from a well-formed state returns: a surviving node hands one
    port to its parent, any other node nothing. *)
Lemma add_children_total cs d st :
  Forall (λ c, ∀ d st, wf_env st → ∃ res st',
            add_nodes label c d st = Some (res, st') ∧ wf_env st' ∧
            extends st st' ∧
            if survives c then ∃ ports, res = Some ports ∧ single_stub ports
            else res = None ∧ st' = st) cs →
  wf_env st → ∃ all st',
    add_children label cs d st = Some (all, st') ∧ wf_env st' ∧
    extends st st' ∧ Forall single_stub all ∧
    length all = length (filter (λ c, survives c = true) cs).
Proof.
  intros IH. revert st. induction IH as [| c cs IHc _ IHcs]; intros st Hwf.
  - exists [], st. split_and!; [done | done | apply extends_refl | done | done].
  - destruct (IHc (d + 1) st Hwf) as (res & s1 & Hrun & Hwf1 & Hext1 & Hres).
    destruct (IHcs s1 Hwf1) as (rest & s2 & Hrest & Hwf2 & Hext2 & Hstubs & Hlen).
    rewrite add_children_cons, (bind_run _ _ _ _ _ Hrun), (bind_run _ _ _ _ _ Hrest).
    eexists _, s2. split_and!; [done | done | by eapply extends_trans | |].
    + destruct (survives c); [| by destruct Hres as [-> _]].
      destruct Hres as (ports & -> & Hp). by constructor.
    + destruct (survives c) eqn:Hc.
      * destruct Hres as (ports & -> & _). rewrite filter_cons_True by done.
        simpl. by rewrite Hlen.
      * destruct Hres as [-> _]. by rewrite filter_cons_False by (by rewrite Hc).
Qed.

Lemma existsb_survives_filter cs :
  existsb survives cs = negb (is_nil (filter (λ c, survives c = true) cs)).
Proof.
  induction cs as [| c cs IH]; [done |]. simpl.
  destruct (survives c) eqn:Hc; simpl.
  - by rewrite filter_cons_True.
  - by rewrite filter_cons_False by (by rewrite Hc).
Qed.

Lemma is_nil_length {X} (l1 : list X) {Y} (l2 : list Y) :
  length l1 = length l2 → is_nil l1 = is_nil l2.
Proof. by destruct l1, l2. Qed.

Lemma add_nodes_total obj : ∀ d st,
  wf_env st → ∃ res st',
    add_nodes label obj d st = Some (res, st') ∧ wf_env st' ∧ extends st st' ∧
    if survives obj then ∃ ports, res = Some ports ∧ single_stub ports
    else res = None ∧ st' = st.
Proof.
  induction obj as [obj IH] using hwloc_obj_tree_ind. intros d st Hwf.
  destruct (add_children_total _ d st IH Hwf)
    as (all & s1 & Hch & Hwf1 & Hext1 & Hstubs & Hlen).
  rewrite add_nodes_unfold, (bind_run _ _ _ _ _ Hch).
  rewrite survives_unfold, existsb_survives_filter, <- (is_nil_length _ _ Hlen).
  rewrite (orb_comm (required_by_type obj)).
  destruct (negb (is_nil all) || required_by_type obj) eqn:Hcond.
  - rewrite (materialize_run _ _ _ Hwf1).
    pose proof (materialized_wf obj all s1 Hwf1) as Hwf2.
    pose proof (materialized_extends obj all s1) as Hext2.
    pose proof (materialized_stub obj all s1) as Hstub.
    destruct (materialized label obj all s1) as [res s2]. simpl in *.
    exists res, s2. split_and!; [done | done | by eapply extends_trans |].
    destruct Hstub as (p & n & ->). eexists. split; [done |]. by eexists _, _.
  - exists None, s1. split_and!; [done | done | done | done |].
    apply orb_false_iff in Hcond as [Hnil Hreq].
    assert (survives obj = false) as Hs.
    { rewrite survives_unfold, existsb_survives_filter,
        <- (is_nil_length _ _ Hlen), Hnil, Hreq. done. }
    pose proof (add_nodes_pruned obj d st Hs) as Hp.
    rewrite add_nodes_unfold, (bind_run _ _ _ _ _ Hch), Hnil, Hreq in Hp.
    by injection Hp.
Qed.

(** ** Classification and naming *)

Lemma network_sap_spec obj :
  network_sap obj = true ↔
  type obj = HWLOC_OBJ_OS_DEVICE ∧
  ∃ i, i ∈ infos obj ∧ case_insensitive_match (info_name i) "address".
Proof.
  unfold network_sap. destruct (decide (type obj = HWLOC_OBJ_OS_DEVICE)) as [Ht | Ht].
  - rewrite existsb_exists. split.
    + intros (i & Hi & Hm). split; [done |]. exists i.
      rewrite list_elem_of_In, <- strcasecmp_match. split; [done | lia].
    + intros (_ & i & Hi & Hm). exists i.
      rewrite list_elem_of_In, <- strcasecmp_match in *. split; [done | lia].
  - split; [done | by intros [? _]].
Qed.


Lemma get_node_name_by_type obj id :
  ¬ (network_sap obj = true ∧ is_Some (name obj)) →
  get_node_name label obj id =
  if bool_decide (type obj = HWLOC_OBJ_PU ∨ type obj = HWLOC_OBJ_CORE ∨
                  type obj = HWLOC_OBJ_MACHINE)
     && bool_decide (os_index obj ≠ UINT_MAX)
  then (label obj +:+ "#" +:+ to_string (os_index obj), id)
  else (label obj +:+ "!" +:+ to_string (get_next_id_for_type (label obj) id).1,
        (get_next_id_for_type (label obj) id).2).
Proof.
  intros Hn. unfold get_node_name, get_node_type.
  destruct (name obj) as [s |] eqn:Hname; [destruct (network_sap obj) |].
  - destruct Hn. by eauto.
  - done.
  - done.
Qed.

Lemma get_next_id_for_type_fresh nodetype id :
  lastfreeidfortype id !! nodetype = None →
  get_next_id_for_type nodetype id =
  (0, mkID (lastfreeid id) (<[nodetype := 1]> (lastfreeidfortype id))).
Proof.
  intros H. unfold get_next_id_for_type. rewrite H.
  rewrite lookup_insert_eq. simpl. by rewrite insert_insert_eq.
Qed.

Lemma get_next_id_for_type_next nodetype id n :
  lastfreeidfortype id !! nodetype = Some n →
  get_next_id_for_type nodetype id =
  (n, mkID (lastfreeid id) (<[nodetype := wrap (n + 1)]> (lastfreeidfortype id))).
Proof. intros H. unfold get_next_id_for_type. rewrite H. simpl. by rewrite H. Qed.

(** C6. Naming: a service access point with a name keeps that name; any
    other node of type PU, core or machine with a valid OS index is named
    [type#index], whatever the allocator holds (so a processing unit with
    index 3 is "PU#3"); every other node is named [type!n] with [n] drawn
    from the counter of its type label, so that of two bus nodes without
    name and index the first one named by a fresh allocator is "Bus!0" and
    the next one, whatever was named under other labels in between, is
    "Bus!1". *)
Theorem node_naming obj id :
  (∀ s, network_sap obj = true → name obj = Some s →
        get_node_name label obj id = (s, id)) ∧
  (¬ (network_sap obj = true ∧ is_Some (name obj)) →
   (type obj = HWLOC_OBJ_PU ∨ type obj = HWLOC_OBJ_CORE ∨
    type obj = HWLOC_OBJ_MACHINE) →
   os_index obj ≠ UINT_MAX →
   get_node_name label obj id =
   (label obj +:+ "#" +:+ to_string (os_index obj), id)) ∧
  (type obj = HWLOC_OBJ_PU → os_index obj = 3 → label obj = "PU" →
   get_node_name label obj id = ("PU#3", id)) ∧
  (¬ (network_sap obj = true ∧ is_Some (name obj)) →
   ¬ ((type obj = HWLOC_OBJ_PU ∨ type obj = HWLOC_OBJ_CORE ∨
       type obj = HWLOC_OBJ_MACHINE) ∧ os_index obj ≠ UINT_MAX) →
   get_node_name label obj id =
   (label obj +:+ "!" +:+ to_string (get_next_id_for_type (label obj) id).1,
    (get_next_id_for_type (label obj) id).2)) ∧
  (∀ obj2 id2,
     name obj = None → os_index obj = UINT_MAX → label obj = "Bus" →
     name obj2 = None → os_index obj2 = UINT_MAX → label obj2 = "Bus" →
     lastfreeidfortype id !! "Bus" = None →
     lastfreeidfortype id2 !! "Bus" =
       lastfreeidfortype (get_node_name label obj id).2 !! "Bus" →
     (get_node_name label obj id).1 = "Bus!0" ∧
     (get_node_name label obj2 id2).1 = "Bus!1").
Proof.
  split_and!.
  - intros s Hsap Hname. unfold get_node_name. by rewrite Hname, Hsap.
  - intros Hn Ht Hi. rewrite get_node_name_by_type by done.
    by rewrite !bool_decide_eq_true_2.
  - intros Ht Hi Hl. rewrite get_node_name_by_type.
    + rewrite !bool_decide_eq_true_2, Hl, Hi; [done | by rewrite Hi | by left].
    + intros [Hsap _]. apply network_sap_spec in Hsap as [? _]. congruence.
  - intros Hn Ht. rewrite get_node_name_by_type by done.
    destruct (bool_decide _ && bool_decide _) eqn:Hb; [| done].
    apply andb_true_iff in Hb as [?%bool_decide_eq_true ?%bool_decide_eq_true].
    by destruct Ht.
  - intros obj2 id2 Hn1 Hi1 Hl1 Hn2 Hi2 Hl2 Hfresh Hid2.
    rewrite !get_node_name_by_type in *
      by (rewrite ?Hn1, ?Hn2; intros [_ [? [=]]]).
    rewrite Hi1, Hi2, Hl1, Hl2 in *.
    rewrite (bool_decide_eq_false_2 (UINT_MAX ≠ UINT_MAX)) in * by (by intros []).
    rewrite !andb_false_r in *.
    rewrite (get_next_id_for_type_fresh _ _ Hfresh) in *. cbn [fst snd] in *.
    split; [done |]. cbn [lastfreeidfortype] in Hid2.
    rewrite lookup_insert_eq in Hid2.
    by rewrite (get_next_id_for_type_next _ _ 1).
Qed.

(** ** Pruning *)

(** C2. A node that is not required and has no required descendant
    contributes nothing: its call returns nothing to the parent and leaves
    the allocator and the three collections as they were, so that no node
    record and no edge can mention it. In particular a machine without
    children and metadata yields three empty collections. *)
Theorem pruning obj d st :
  (survives obj = false → add_nodes label obj d st = Some (None, st)) ∧
  (type obj = HWLOC_OBJ_MACHINE → children obj = [] → infos obj = [] →
   add_nodes label obj 0 Env_init = Some (None, Env_init) ∧
   ∀ nodename, ∃ out,
     add_topology_tree label nodename obj JNull = Some out ∧
     json_get "node_saps" out = Some JNull ∧
     json_get "node_infras" out = Some JNull ∧
     json_get "edge_links" out = Some JNull ∧
     json_empty JNull = true).
Proof.
  split; [apply add_nodes_pruned |]. intros Ht Hcs Hinf.
  assert (add_nodes label obj 0 Env_init = Some (None, Env_init)) as Hrun.
  { apply add_nodes_pruned. rewrite survives_unfold, Hcs.
    unfold required_by_type. rewrite Ht. done. }
  split; [done |]. intros nodename.
  unfold add_topology_tree. rewrite Hrun. simpl. eexists. split; [done |].
  done.
Qed.

(** ** Determinism *)

Lemma add_nodes_depth obj : ∀ d d' st,
  add_nodes label obj d st = add_nodes label obj d' st.
Proof.
  induction obj as [obj IH] using hwloc_obj_tree_ind. intros d d' st.
  rewrite !add_nodes_unfold.
  assert (∀ st, add_children label (children obj) d st =
                add_children label (children obj) d' st) as Hch.
  { clear st. induction IH as [| c cs IHc _ IHcs]; intros st; [done |].
    rewrite !add_children_cons. unfold bind.
    rewrite (IHc (d + 1) (d' + 1)).
    destruct (add_nodes label c (d' + 1) st) as [[res s1] |]; [| done].
    by rewrite IHcs. }
  unfold bind. by rewrite Hch.
Qed.

(** ** The single-PU topology *)

Lemma wf_env_init : wf_env Env_init.
Proof. split_and!; try (by left); done. Qed.

Lemma pu_not_sap obj : type obj = HWLOC_OBJ_PU → network_sap obj = false.
Proof. intros Ht. unfold network_sap. by rewrite Ht. Qed.

Lemma add_nodes_leaf_pu obj d st :
  wf_env st → type obj = HWLOC_OBJ_PU → children obj = [] →
  add_nodes label obj d st = Some (materialized label obj [] st).
Proof.
  intros Hwf Ht Hcs. rewrite add_nodes_unfold, Hcs, add_children_nil.
  unfold bind, ret. unfold required_by_type. rewrite Ht. simpl.
  by apply materialize_run.
Qed.

(** C1, as the program behaves. For a root whose only child is a childless
    processing unit with OS index 0, the child becomes the infrastructure
    node "PU#0" of type "EE" with the single port 0. The root is
    materialized as well, with two ports: it is appended to the node
    collection of its kind, and one edge leads from it to port 0 of
    "PU#0". *)
Theorem single_pu_topology root pu :
  children root = [pu] → type pu = HWLOC_OBJ_PU → os_index pu = 0 →
  children pu = [] → label pu = "PU" →
  let rn := (get_node_name label root (mkID 1 ∅)).1 in
  ∃ st, add_nodes label root 0 Env_init = Some (Some [(3, rn)], st) ∧
    json_elems (node_edges st) = [edge_json 1 rn 2 (0, "PU#0")] ∧
    if network_sap root
    then json_elems (node_infras st) = [ee_json "PU#0" [port_json 0]] ∧
         json_elems (node_saps st) = [sap_json rn [port_json 2; port_json 3]]
    else json_elems (node_infras st) =
           [ee_json "PU#0" [port_json 0];
            if decide (type root = HWLOC_OBJ_PU)
            then ee_json rn [port_json 2; port_json 3]
            else switch_json rn [port_json 2; port_json 3]] ∧
         json_elems (node_saps st) = [].
Proof.
  intros Hcs Ht Hi Hleaf Hl rn.
  assert (get_node_name label pu ID_init = ("PU#0", ID_init)) as Hname.
  { rewrite get_node_name_by_type.
    - rewrite !bool_decide_eq_true_2, Hl, Hi; [done | by rewrite Hi | by left].
    - intros [Hsap _]. by rewrite pu_not_sap in Hsap. }
  assert (materialized label pu [] Env_init =
          (Some [(0, "PU#0")],
           mkEnv (mkID 1 ∅) (JArray [ee_json "PU#0" [port_json 0]]) JNull JNull))
    as Hpu.
  { unfold materialized. cbn [Env_init env_id]. rewrite Hname.
    rewrite (pu_not_sap _ Ht), decide_True by done. done. }
  pose proof (add_nodes_leaf_pu pu (0 + 1) _ wf_env_init Ht Hleaf) as Hrun.
  rewrite Hpu in Hrun.
  rewrite add_nodes_unfold, Hcs, add_children_cons.
  unfold bind at 1. rewrite (bind_run _ _ _ _ _ Hrun).
  rewrite add_children_nil. unfold bind, ret. cbn [is_nil negb orb].
  rewrite materialize_run.
  2:{ split_and!; try (by left); try (right; by eexists); done. }
  unfold materialized. cbn [env_id].
  fold rn. destruct (get_node_name label root (mkID 1 ∅)) as [nm i] eqn:Hroot.
  pose proof (get_node_name_lastfreeid root (mkID 1 ∅)) as Hlf.
  rewrite Hroot in Hlf. simpl in Hlf, rn. subst rn. rewrite Hlf.
  destruct (network_sap root); eexists; (split; [done |]); split; done.
Qed.

(** ** Materialized nodes *)

Lemma add_children_wf cs d st all st1 :
  wf_env st → add_children label cs d st = Some (all, st1) →
  wf_env st1 ∧ extends st st1 ∧ Forall single_stub all ∧
  length all = length (filter (λ c, survives c = true) cs).
Proof.
  intros Hwf Hrun.
  destruct (add_children_total cs d st) as (all' & st' & Hrun' & H); [| done |].
  - apply Forall_forall. intros c _ d' s. apply add_nodes_total.
  - rewrite Hrun in Hrun'. by injection Hrun' as <- <-.
Qed.

Lemma add_nodes_materialize obj d st allports st1 :
  wf_env st → add_children label (children obj) d st = Some (allports, st1) →
  negb (is_nil allports) || required_by_type obj = true →
  add_nodes label obj d st = Some (materialized label obj allports st1).
Proof.
  intros Hwf Hch Hcond. rewrite add_nodes_unfold, (bind_run _ _ _ _ _ Hch), Hcond.
  apply materialize_run. by eapply add_children_wf.
Qed.

Lemma length_concat_single_stubs (all : list NodePorts) :
  Forall single_stub all → length (concat all) = length all.
Proof.
  induction 1 as [| ports all (p & n & ->) _ IH]; [done |]. simpl. by rewrite IH.
Qed.

(** C8. A materialized node that is a service access point is appended to
    the SAP collection as a record with the members id, name and ports and
    no other; every other materialized node is appended to the
    infrastructure collection with domain "INTERNAL": a processing unit
    with type "EE", the capability list and the resources cpu 1, mem 32000,
    storage 150, delay 0.5, bandwidth 1000, any other node with type
    "SDN-SWITCH" and the resources cpu 0, mem 0, storage 0, delay 0.5,
    bandwidth 1000. *)
Theorem node_record_by_class obj d st allports st1 :
  wf_env st → add_children label (children obj) d st = Some (allports, st1) →
  negb (is_nil allports) || required_by_type obj = true →
  ∃ p nm st2 rec,
    add_nodes label obj d st = Some (Some [(p, nm)], st2) ∧
    if network_sap obj
    then node_saps st2 = json_extend (node_saps st1) [rec] ∧
         node_infras st2 = node_infras st1 ∧
         json_keys rec = ["id"; "name"; "ports"]
    else node_infras st2 = json_extend (node_infras st1) [rec] ∧
         node_saps st2 = node_saps st1 ∧
         json_get "domain" rec = Some (JString "INTERNAL") ∧
         if decide (type obj = HWLOC_OBJ_PU)
         then json_get "type" rec = Some (JString "EE") ∧
              json_get "supported" rec = Some (JArray [JString "headerDecompressor"]) ∧
              json_get "resources" rec =
                Some (JObject [("bandwidth", JInt 1000); ("cpu", JInt 1);
                               ("delay", JReal (1 # 2)); ("mem", JInt 32000);
                               ("storage", JInt 150)])
         else json_get "type" rec = Some (JString "SDN-SWITCH") ∧
              json_get "supported" rec = None ∧
              json_get "resources" rec =
                Some (JObject [("bandwidth", JInt 1000); ("cpu", JInt 0);
                               ("delay", JReal (1 # 2)); ("mem", JInt 0);
                               ("storage", JInt 0)]).
Proof.
  intros Hwf Hch Hcond. rewrite (add_nodes_materialize _ _ _ _ _ Hwf Hch Hcond).
  unfold materialized. destruct (get_node_name label obj (env_id st1)) as [nm i].
  destruct (network_sap obj).
  - by eexists _, _, _, _.
  - destruct (decide (type obj = HWLOC_OBJ_PU)); by eexists _, _, _, _.
Qed.

(** ** The identifiers of a run *)

Lemma drawn_unfold obj :
  drawn obj =
  foldr (λ c n, drawn c + n) 0 (children obj) +
  (if survives obj
   then 2 * Z.of_nat (length (filter (λ c, survives c = true) (children obj))) + 1
   else 0).
Proof. by destruct obj. Qed.

Lemma drawn_nonneg obj : 0 ≤ drawn obj.
Proof.
  induction obj as [obj IH] using hwloc_obj_tree_ind. rewrite drawn_unfold.
  assert (0 ≤ foldr (λ c n, drawn c + n) 0 (children obj)).
  { induction IH; simpl; lia. }
  destruct (survives obj); lia.
Qed.

Lemma drawn_children_nonneg cs : 0 ≤ foldr (λ c n, drawn c + n) 0 cs.
Proof. induction cs as [| c cs IH]; simpl; [done |]. pose proof (drawn_nonneg c). lia. Qed.

Lemma drawn_pruned obj : survives obj = false → drawn obj = 0.
Proof.
  induction obj as [obj IH] using hwloc_obj_tree_ind. intros Hs.
  rewrite drawn_unfold, Hs. rewrite survives_unfold in Hs.
  apply orb_false_iff in Hs as [_ Hcs].
  induction IH as [| c cs IHc _ IHcs]; simpl in *; [done |].
  apply orb_false_iff in Hcs as [Hc Hcs]. rewrite (IHc Hc). by apply IHcs.
Qed.

Lemma ids_from_wrap c n : ids_from (wrap c) n = ids_from c n.
Proof.
  assert (∀ c', ids_from c' n = (λ k, JUInt (wrap (c' + k))) <$> seqZ 0 n) as H.
  { intros c'. unfold ids_from.
    rewrite <- (Z.add_0_r c') at 1. by rewrite <- fmap_add_seqZ, <- list_fmap_compose. }
  rewrite !H. apply list_fmap_ext. intros _ k _. simpl. by rewrite wrap_succ.
Qed.

Lemma ids_from_app c n1 n2 :
  0 ≤ n1 → 0 ≤ n2 → ids_from c (n1 + n2) = ids_from c n1 ++ ids_from (c + n1) n2.
Proof. intros. unfold ids_from. by rewrite seqZ_app, fmap_app. Qed.

Lemma ids_from_cons c n : 0 < n → ids_from c n = JUInt (wrap c) :: ids_from (c + 1) (n - 1).
Proof. intros. unfold ids_from. by rewrite seqZ_cons. Qed.

Lemma port_ids_extend v rec :
  port_ids (json_extend v [rec]) =
  port_ids v ++ (json_field "id" <$> json_elems (json_field "ports" rec)).
Proof. unfold port_ids. simpl. rewrite bind_app. simpl. by rewrite app_nil_r. Qed.

Lemma edge_ids_extend v es :
  edge_ids (json_extend v es) = edge_ids v ++ (json_field "id" <$> es).
Proof. unfold edge_ids. by rewrite json_elems_extend, fmap_app. Qed.

Lemma port_json_ids (l : list Z) : json_field "id" <$> (port_json <$> l) = JUInt <$> l.
Proof. rewrite <- list_fmap_compose. by apply list_fmap_ext. Qed.

(** The ports and edges of one node take consecutive values of the
    counter. *)
Lemma own_ids_consecutive node_name stubs : ∀ c,
  (JUInt <$> (src_ports_of c (length stubs) ++
              [wrap (c + 2 * Z.of_nat (length stubs))])) ++
  (json_field "id" <$> edges_of node_name c stubs)
  ≡ₚ ids_from c (2 * Z.of_nat (length stubs) + 1).
Proof.
  induction stubs as [| pit stubs IH]; intros c.
  - simpl. rewrite ids_from_cons by lia. simpl.
    unfold ids_from. rewrite seqZ_nil by lia. simpl.
    by rewrite Z.add_0_r.
  - cbn [length]. rewrite src_ports_of_S, edges_of_cons.
    rewrite (ids_from_cons c) by lia.
    rewrite (ids_from_cons (c + 1)) by lia.
    replace (2 * Z.of_nat (S (length stubs)) + 1 - 1 - 1)
      with (2 * Z.of_nat (length stubs) + 1) by lia.
    replace (c + 1 + 1) with (c + 2) by lia.
    replace (c + 2 * Z.of_nat (S (length stubs)))
      with (c + 2 + 2 * Z.of_nat (length stubs)) by lia.
    rewrite <- (IH (c + 2)). simpl.
    rewrite <- Permutation_middle. apply Permutation_swap.
Qed.

Lemma json_field_ports_sap nm ports : json_field "ports" (sap_json nm ports) = JArray ports.
Proof. done. Qed.

Lemma json_field_ports_ee nm ports : json_field "ports" (ee_json nm ports) = JArray ports.
Proof. done. Qed.

Lemma json_field_ports_switch nm ports :
  json_field "ports" (switch_json nm ports) = JArray ports.
Proof. done. Qed.

Lemma all_ids_materialized obj allports st :
  let '(nm, i) := get_node_name label obj (env_id st) in
  let n := length (concat allports) in
  all_ids (materialized label obj allports st).2 ≡ₚ
  all_ids st ++
  (JUInt <$> (src_ports_of (lastfreeid i) n ++ [wrap (lastfreeid i + 2 * Z.of_nat n)])) ++
  (json_field "id" <$> edges_of nm (lastfreeid i) (concat allports)).
Proof.
  unfold materialized. destruct (get_node_name label obj (env_id st)) as [nm i].
  set (ports := src_ports_of _ _ ++ [_]). unfold all_ids.
  destruct (network_sap obj); [| destruct (decide (type obj = HWLOC_OBJ_PU))];
    cbn [snd node_saps node_infras node_edges];
    rewrite port_ids_extend, edge_ids_extend,
      ?json_field_ports_sap, ?json_field_ports_ee, ?json_field_ports_switch;
    cbn [json_elems]; rewrite port_json_ids.
  - rewrite <- !(assoc_L (++)). f_equiv.
    rewrite !(assoc_L (++)). f_equiv.
    rewrite <- !(assoc_L (++)).
    rewrite (comm (++) (JUInt <$> ports)). by rewrite <- !(assoc_L (++)).
  - rewrite <- !(assoc_L (++)). do 2 f_equiv.
    rewrite !(assoc_L (++)). f_equiv. apply (comm (++)).
  - rewrite <- !(assoc_L (++)). do 2 f_equiv.
    rewrite !(assoc_L (++)). f_equiv. apply (comm (++)).
Qed.

Lemma materialized_lastfreeid obj allports st :
  lastfreeid (env_id (materialized label obj allports st).2) =
  wrap (lastfreeid (env_id st) + 2 * Z.of_nat (length (concat allports)) + 1).
Proof.
  pose proof (get_node_name_lastfreeid obj (env_id st)) as Hlf.
  unfold materialized. destruct (get_node_name label obj (env_id st)) as [nm i].
  simpl in Hlf. rewrite Hlf. by destruct (network_sap obj).
Qed.

Lemma add_nodes_wf obj d st res st' :
  wf_env st → add_nodes label obj d st = Some (res, st') →
  wf_env st' ∧ extends st st' ∧
  if survives obj then ∃ ports, res = Some ports ∧ single_stub ports
  else res = None ∧ st' = st.
Proof.
  intros Hwf Hrun.
  destruct (add_nodes_total obj d st Hwf) as (res' & s & Hrun' & H).
  rewrite Hrun in Hrun'. by injection Hrun' as <- <-.
Qed.

Lemma add_children_cons_Some (c : @hwloc_obj A) cs d st all st2 :
  add_children label (c :: cs) d st = Some (all, st2) →
  ∃ res s1 rest,
    add_nodes label c (d + 1) st = Some (res, s1) ∧
    add_children label cs d s1 = Some (rest, st2) ∧
    all = match res with Some p => p :: rest | None => rest end.
Proof.
  rewrite add_children_cons. intros (res & s1 & Hc & H)%bind_Some.
  apply bind_Some in H as (rest & s2 & Hcs & [= <- <-]).
  by exists res, s1, rest.
Qed.

Lemma add_nodes_Some obj d st res st' :
  add_nodes label obj d st = Some (res, st') →
  ∃ allports st1,
    add_children label (children obj) d st = Some (allports, st1) ∧
    (if negb (is_nil allports) || required_by_type obj
     then materialize label obj allports
     else ret None) st1 = Some (res, st').
Proof. rewrite add_nodes_unfold. intros (all & s1 & H1 & H2)%bind_Some. eauto. Qed.

Lemma add_children_ids cs d :
  Forall (λ c, ∀ d st c0 res st',
            wf_env st → lastfreeid (env_id st) = wrap c0 →
            add_nodes label c d st = Some (res, st') →
            lastfreeid (env_id st') = wrap (c0 + drawn c) ∧
            all_ids st' ≡ₚ all_ids st ++ ids_from c0 (drawn c)) cs →
  ∀ st c0 all st1,
    wf_env st → lastfreeid (env_id st) = wrap c0 →
    add_children label cs d st = Some (all, st1) →
    lastfreeid (env_id st1) = wrap (c0 + foldr (λ c n, drawn c + n) 0 cs) ∧
    all_ids st1 ≡ₚ all_ids st ++ ids_from c0 (foldr (λ c n, drawn c + n) 0 cs).
Proof.
  induction 1 as [| c cs IHc _ IHcs]; intros st c0 all st1 Hwf Hc0 Hrun.
  - injection Hrun as <- <-. simpl. rewrite Z.add_0_r.
    unfold ids_from. rewrite seqZ_nil by done. simpl. by rewrite app_nil_r.
  - apply add_children_cons_Some in Hrun as (res & s1 & rest & Hc & Hcs & _).
    destruct (IHc _ _ _ _ _ Hwf Hc0 Hc) as [Hlf1 Hids1].
    destruct (add_nodes_wf _ _ _ _ _ Hwf Hc) as (Hwf1 & _).
    destruct (IHcs _ _ _ _ Hwf1 Hlf1 Hcs) as [Hlf2 Hids2].
    simpl. split.
    + rewrite Hlf2. f_equal. lia.
    + rewrite Hids2, Hids1, <- (assoc_L (++)).
      rewrite <- ids_from_app;
        [done | apply drawn_nonneg | apply drawn_children_nonneg].
Qed.

(** The identifiers written by a run are exactly the values the global
    counter takes during it, each one once. *)
Lemma add_nodes_ids obj : ∀ d st c0 res st',
  wf_env st → lastfreeid (env_id st) = wrap c0 →
  add_nodes label obj d st = Some (res, st') →
  lastfreeid (env_id st') = wrap (c0 + drawn obj) ∧
  all_ids st' ≡ₚ all_ids st ++ ids_from c0 (drawn obj).
Proof.
  induction obj as [obj IH] using hwloc_obj_tree_ind.
  intros d st c0 res st' Hwf Hc0 Hrun.
  destruct (survives obj) eqn:Hs.
  2:{ rewrite add_nodes_pruned in Hrun by done. injection Hrun as <- <-.
      rewrite drawn_pruned, Z.add_0_r by done. split; [done |].
      unfold ids_from. rewrite seqZ_nil by done. simpl. by rewrite app_nil_r. }
  apply add_nodes_Some in Hrun as (all & s1 & Hch & Hbody).
  destruct (add_children_ids _ d IH _ _ _ _ Hwf Hc0 Hch) as [Hlf1 Hids1].
  destruct (add_children_wf _ _ _ _ _ Hwf Hch) as (Hwf1 & _ & Hstubs & Hlen).
  assert (negb (is_nil all) || required_by_type obj = true) as Hcond.
  { rewrite survives_unfold, existsb_survives_filter,
      <- (is_nil_length _ _ Hlen), orb_comm in Hs. done. }
  rewrite Hcond, (materialize_run _ _ _ Hwf1) in Hbody.
  assert (st' = (materialized label obj all s1).2) as ->.
  { injection Hbody as Hbody. by rewrite Hbody. }
  clear Hbody.
  pose proof (all_ids_materialized obj all s1) as Hids.
  pose proof (materialized_lastfreeid obj all s1) as Hlf'.
  pose proof (get_node_name_lastfreeid obj (env_id s1)) as Hlf.
  destruct (get_node_name label obj (env_id s1)) as [nm i]. simpl in Hlf.
  cbv zeta in Hids. rewrite Hlf, Hlf1 in *.
  rewrite own_ids_consecutive, ids_from_wrap in Hids.
  rewrite (length_concat_single_stubs _ Hstubs), Hlen in *.
  set (n := length (filter _ _)) in *.
  set (sum := foldr _ _ _) in *.
  assert (0 ≤ sum) by apply drawn_children_nonneg.
  rewrite drawn_unfold, Hs. fold sum. fold n.
  split.
  - rewrite Hlf', <- !Z.add_assoc, wrap_succ. f_equal. lia.
  - rewrite ids_from_app by lia. by rewrite (assoc_L (++)), <- Hids1, <- Hids.
Qed.

Lemma NoDup_fmap_inj_on {X Y} (f : X → Y) (l : list X) x y :
  NoDup (f <$> l) → x ∈ l → y ∈ l → f x = f y → x = y.
Proof.
  induction l as [| a l IH]; intros Hnd Hx Hy Hf; [by apply elem_of_nil in Hx |].
  rewrite fmap_cons in Hnd. apply NoDup_cons in Hnd as [Hnotin Hnd].
  apply elem_of_cons in Hx as [-> | Hx]; apply elem_of_cons in Hy as [-> | Hy].
  - done.
  - destruct Hnotin. rewrite Hf. by apply list_elem_of_fmap_2.
  - destruct Hnotin. rewrite <- Hf. by apply list_elem_of_fmap_2.
  - by apply IH.
Qed.

Lemma NoDup_ids_from c n :
  0 ≤ c → c + n ≤ 2 ^ UINT_WIDTH → NoDup (ids_from c n).
Proof.
  intros Hc Hn. unfold ids_from. apply NoDup_fmap_2_strong; [| apply NoDup_seqZ].
  intros x y Hx%elem_of_seqZ Hy%elem_of_seqZ [= Hxy].
  by rewrite !wrap_small in Hxy by lia.
Qed.

Lemma ids_from_collide n : 2 ^ UINT_WIDTH < n → ¬ NoDup (ids_from 0 n).
Proof.
  intros Hn Hnd.
  assert (0 = 2 ^ UINT_WIDTH) as Heq; [| done].
  apply (NoDup_fmap_inj_on _ _ _ _ Hnd); [| | done].
  - apply elem_of_seqZ. lia.
  - apply elem_of_seqZ. lia.
Qed.

Lemma all_ids_init : all_ids Env_init = [].
Proof. done. Qed.

(** C3, as the program behaves. In a run that draws no more than 2^32
    identifiers from the global counter, the port ids of all node records
    and the ids of all edges are pairwise distinct: together they are the
    values 0, 1, ... the counter has returned, each one once. *)
Theorem ids_distinct obj d :
  drawn obj ≤ 2 ^ UINT_WIDTH →
  ∃ res st,
    add_nodes label obj d Env_init = Some (res, st) ∧
    port_ids (node_saps st) ++ port_ids (node_infras st) ++ edge_ids (node_edges st)
      ≡ₚ ids_from 0 (drawn obj) ∧
    NoDup (port_ids (node_saps st) ++ port_ids (node_infras st) ++
           edge_ids (node_edges st)).
Proof.
  intros Hd.
  destruct (add_nodes_total obj d Env_init wf_env_init) as (res & st & Hrun & _).
  destruct (add_nodes_ids obj d Env_init 0 res st wf_env_init eq_refl Hrun)
    as [_ Hids].
  rewrite all_ids_init in Hids. simpl in Hids. fold (all_ids st).
  exists res, st. split_and!; [done | done |].
  rewrite Hids. by apply NoDup_ids_from.
Qed.

(** Once the counter has wrapped around, identifiers repeat. *)
Lemma ids_repeat_after_overflow obj d :
  2 ^ UINT_WIDTH < drawn obj →
  ∃ res st,
    add_nodes label obj d Env_init = Some (res, st) ∧
    ¬ NoDup (port_ids (node_saps st) ++ port_ids (node_infras st) ++
             edge_ids (node_edges st)).
Proof.
  intros Hd.
  destruct (add_nodes_total obj d Env_init wf_env_init) as (res & st & Hrun & _).
  destruct (add_nodes_ids obj d Env_init 0 res st wf_env_init eq_refl Hrun)
    as [_ Hids].
  rewrite all_ids_init in Hids. simpl in Hids. fold (all_ids st).
  exists res, st. split; [done |]. rewrite Hids. by apply ids_from_collide.
Qed.

(** ** The ids of one node *)



(** ** Ids and names of the records *)

Lemma extends_node_records st st' r :
  extends st st' → r ∈ node_records st → r ∈ node_records st'.
Proof.
  intros (i & s & e & Hi & Hs & He). unfold node_records.
  rewrite Hi, Hs, !json_elems_extend, !elem_of_app. tauto.
Qed.

Lemma extends_has_node st st' n : extends st st' → has_node st n → has_node st' n.
Proof. intros Hext (r & Hr & H). exists r. eauto using extends_node_records. Qed.

Lemma extends_endpoints_named st st' e :
  extends st st' → endpoints_named st e → endpoints_named st' e.
Proof.
  intros Hext [(n1 & H1 & Hn1) (n2 & H2 & Hn2)].
  split; eexists; eauto using extends_has_node.
Qed.

Lemma materialized_records obj allports st :
  ∃ rec,
    node_records (materialized label obj allports st).2 ≡ₚ rec :: node_records st ∧
    json_get "id" rec = Some (JString (given_name label obj st)) ∧
    json_get "name" rec = Some (JString (given_name label obj st)) ∧
    json_elems (node_edges (materialized label obj allports st).2) =
    json_elems (node_edges st) ++
    edges_of (given_name label obj st) (lastfreeid (env_id st)) (concat allports).
Proof.
  pose proof (get_node_name_lastfreeid obj (env_id st)) as Hlf.
  unfold materialized, given_name.
  destruct (get_node_name label obj (env_id st)) as [nm i]. simpl in Hlf.
  rewrite Hlf. unfold node_records.
  destruct (network_sap obj); [| destruct (decide (type obj = HWLOC_OBJ_PU))].
  - eexists (sap_json nm _). cbn [fst snd node_saps node_infras node_edges].
    rewrite !json_elems_extend. split_and!; [| done | done | done].
    rewrite <- (assoc_L (++)). simpl. by rewrite <- Permutation_middle.
  - eexists (ee_json nm _). cbn [fst snd node_saps node_infras node_edges].
    rewrite !json_elems_extend. split_and!; [| done | done | done].
    by rewrite (assoc_L (++)), <- Permutation_cons_append.
  - eexists (switch_json nm _). cbn [fst snd node_saps node_infras node_edges].
    rewrite !json_elems_extend. split_and!; [| done | done | done].
    by rewrite (assoc_L (++)), <- Permutation_cons_append.
Qed.

Lemma materialized_result obj allports st :
  (materialized label obj allports st).1 =
  Some [(wrap (lastfreeid (env_id st) + 2 * Z.of_nat (length (concat allports))),
         given_name label obj st)].
Proof.
  pose proof (get_node_name_lastfreeid obj (env_id st)) as Hlf.
  unfold materialized, given_name.
  destruct (get_node_name label obj (env_id st)) as [nm i]. simpl in Hlf.
  by rewrite Hlf.
Qed.

(** What a call of [add_nodes] that returns has done. *)
Lemma add_nodes_inv obj d st res st' :
  wf_env st → add_nodes label obj d st = Some (res, st') →
  ∃ allports st1,
    add_children label (children obj) d st = Some (allports, st1) ∧
    wf_env st1 ∧ extends st st1 ∧ Forall single_stub allports ∧
    length allports = length (filter (λ c, survives c = true) (children obj)) ∧
    ((negb (is_nil allports) || required_by_type obj = false ∧
      res = None ∧ st' = st1) ∨
     (negb (is_nil allports) || required_by_type obj = true ∧
      res = (materialized label obj allports st1).1 ∧
      st' = (materialized label obj allports st1).2)).
Proof.
  intros Hwf Hrun.
  apply add_nodes_Some in Hrun as (all & s1 & Hch & Hbody).
  destruct (add_children_wf _ _ _ _ _ Hwf Hch) as (Hwf1 & Hext & Hstubs & Hlen).
  exists all, s1. split_and!; try done.
  destruct (negb (is_nil all) || required_by_type obj).
  - right. rewrite (materialize_run _ _ _ Hwf1) in Hbody.
    injection Hbody as Hbody. by rewrite Hbody.
  - left. by injection Hbody as <- <-.
Qed.

Lemma edges_of_elem node_name c stubs e :
  e ∈ edges_of node_name c stubs →
  ∃ eid sp stub, stub ∈ stubs ∧ e = edge_json eid node_name sp stub.
Proof.
  unfold edges_of. intros (k & Hk)%list_elem_of_lookup_1.
  rewrite list_lookup_imap in Hk.
  destruct (stubs !! k) as [stub |] eqn:Hstub; [| done].
  injection Hk as <-. eexists _, _, stub. split; [| done].
  by eapply list_elem_of_lookup_2.
Qed.

Lemma add_children_consistent cs d :
  Forall (λ c, ∀ d st res st',
            wf_env st → records_consistent st →
            add_nodes label c d st = Some (res, st') →
            records_consistent st' ∧
            ∀ ports stub, res = Some ports → stub ∈ ports → has_node st' stub.2) cs →
  ∀ st all st1,
    wf_env st → records_consistent st →
    add_children label cs d st = Some (all, st1) →
    records_consistent st1 ∧ ∀ stub, stub ∈ concat all → has_node st1 stub.2.
Proof.
  induction 1 as [| c cs IHc _ IHcs]; intros st all st1 Hwf Hinv Hrun.
  - injection Hrun as <- <-. split; [done |]. intros stub Hstub.
    by apply elem_of_nil in Hstub.
  - apply add_children_cons_Some in Hrun as (res & s1 & rest & Hc & Hcs & ->).
    destruct (IHc _ _ _ _ Hwf Hinv Hc) as [Hinv1 Hres].
    destruct (add_nodes_wf _ _ _ _ _ Hwf Hc) as (Hwf1 & _).
    destruct (IHcs _ _ _ Hwf1 Hinv1 Hcs) as [Hinv2 Hrest].
    destruct (add_children_wf _ _ _ _ _ Hwf1 Hcs) as (_ & Hext & _).
    split; [done |]. intros stub Hstub.
    destruct res as [ports |]; [| by apply Hrest].
    simpl in Hstub. apply elem_of_app in Hstub as [Hstub | Hstub].
    + eapply extends_has_node; [done |]. by eapply Hres.
    + by apply Hrest.
Qed.

Lemma add_nodes_consistent obj : ∀ d st res st',
  wf_env st → records_consistent st →
  add_nodes label obj d st = Some (res, st') →
  records_consistent st' ∧
  ∀ ports stub, res = Some ports → stub ∈ ports → has_node st' stub.2.
Proof.
  induction obj as [obj IH] using hwloc_obj_tree_ind.
  intros d st res st' Hwf Hinv Hrun.
  apply add_nodes_inv in Hrun
    as (all & s1 & Hch & Hwf1 & _ & _ & _ & [(_ & -> & ->) | (_ & -> & ->)]);
    [| | done].
  { destruct (add_children_consistent _ d IH _ _ _ Hwf Hinv Hch) as [Hinv1 _].
    by split. }
  destruct (add_children_consistent _ d IH _ _ _ Hwf Hinv Hch) as [[Hrecs Hedges] Hstubs].
  pose proof (materialized_extends obj all s1) as Hext.
  destruct (materialized_records obj all s1) as (rec & Hperm & Hid & Hname & Hnew).
  rewrite materialized_result.
  set (st2 := (materialized label obj all s1).2) in *.
  set (nm := given_name label obj s1) in *.
  assert (has_node st2 nm) as Hnm.
  { exists rec. split; [| done]. rewrite Hperm. by left. }
  split; [split |].
  - rewrite Hperm. constructor; [by exists nm | done].
  - rewrite Hnew. apply Forall_app. split.
    + eapply Forall_impl; [done |]. intros e. by apply extends_endpoints_named.
    + apply Forall_forall. intros e (eid & sp & stub & Hstub & ->)%edges_of_elem.
      split; eexists; (split; [done |]); [done |].
      eapply extends_has_node; [done |]. by apply Hstubs.
  - intros ports stub [= <-] Hstub. apply list_elem_of_singleton in Hstub as ->. done.
Qed.

(** C10. In every node record the traversal writes, of either collection,
    the id is the name; and as an edge names its two ends by node name,
    each end of every edge is the id of such a record. *)
Theorem record_ids_are_names obj d res st :
  add_nodes label obj d Env_init = Some (res, st) →
  (∀ r, r ∈ json_elems (node_saps st) ++ json_elems (node_infras st) →
        ∃ n, json_get "id" r = Some (JString n) ∧
             json_get "name" r = Some (JString n)) ∧
  (∀ e, e ∈ json_elems (node_edges st) →
        ∀ k, k = "src_node" ∨ k = "dst_node" →
        ∃ n r, json_get k e = Some (JString n) ∧
               r ∈ json_elems (node_saps st) ++ json_elems (node_infras st) ∧
               json_get "id" r = Some (JString n) ∧
               json_get "name" r = Some (JString n)).
Proof.
  intros Hrun.
  destruct (add_nodes_consistent obj d Env_init res st wf_env_init) as [[Hrecs Hedges] _];
    [by split | done |].
  split.
  - intros r Hr. by eapply Forall_forall in Hrecs.
  - intros e He k Hk. eapply Forall_forall in Hedges as [Hsrc Hdst]; [| done].
    destruct Hk as [-> | ->].
    + destruct Hsrc as (n & Hn & r & Hr & Hid & Hname). by exists n, r.
    + destruct Hdst as (n & Hn & r & Hr & Hid & Hname). by exists n, r.
Qed.

(** ** The loop over the children, split *)

Lemma add_children_app cs1 cs2 d st :
  add_children label (cs1 ++ cs2) d st =
  bind (add_children label cs1 d)
       (λ a1, bind (add_children label cs2 d) (λ a2, ret (a1 ++ a2))) st.
Proof.
  revert st. induction cs1 as [| c cs1 IH]; intros st.
  - rewrite add_children_nil. simpl. unfold bind, ret.
    by destruct (add_children label cs2 d st) as [[a2 s] |].
  - rewrite <- app_comm_cons, !add_children_cons. unfold bind, ret.
    destruct (add_nodes label c (d + 1) st) as [[res s1] |]; [| done].
    rewrite IH. unfold bind, ret.
    destruct (add_children label cs1 d s1) as [[a1 s2] |]; [| done].
    destruct (add_children label cs2 d s2) as [[a2 s3] |]; [| done].
    by destruct res.
Qed.

Lemma add_children_split cs d st all st1 i (c : @hwloc_obj A) before sti :
  add_children label cs d st = Some (all, st1) →
  cs !! i = Some c →
  add_children label (take i cs) d st = Some (before, sti) →
  ∃ res s rest,
    add_nodes label c (d + 1) sti = Some (res, s) ∧
    add_children label (drop (S i) cs) d s = Some (rest, st1) ∧
    all = before ++ match res with Some p => p :: rest | None => rest end.
Proof.
  intros Hrun Hc Hbefore.
  rewrite <- (take_drop_middle cs i c Hc), add_children_app in Hrun.
  rewrite (bind_run _ _ _ _ _ Hbefore) in Hrun.
  apply bind_Some in Hrun as (a2 & s2 & Hrest & [= <- <-]).
  apply add_children_cons_Some in Hrest as (res & s & rest & H1 & H2 & ->).
  by exists res, s, rest.
Qed.

(** ** The allocator on its own *)

Lemma serve_all_snoc rs r id :
  serve_all (rs ++ [r]) id = (serve r (serve_all rs id)).2.
Proof. unfold serve_all. by rewrite foldl_app. Qed.

Lemma serve_all_state rs :
  lastfreeid (serve_all rs ID_init) =
    wrap (Z.of_nat (length (filter (λ r, r = ReqGlobal) rs))) ∧
  ∀ t, lastfreeidfortype (serve_all rs ID_init) !! t =
       match length (filter (λ r, r = ReqType t) rs) with
       | O => None
       | S k => Some (wrap (Z.of_nat (S k)))
       end.
Proof.
  induction rs as [| r rs [IHg IHt]] using rev_ind; [done |].
  rewrite serve_all_snoc. destruct r as [| t']; simpl.
  - split.
    + rewrite filter_app, filter_cons_True, length_app by done.
      rewrite IHg, wrap_succ. simpl. f_equal. lia.
    + intros t. rewrite filter_app, filter_cons_False, filter_nil, app_nil_r by done.
      apply IHt.
  - split.
    + rewrite filter_app, filter_cons_False, filter_nil, app_nil_r by done.
      unfold get_next_id_for_type.
      by destruct (lastfreeidfortype (serve_all rs ID_init) !! t').
    + intros t. rewrite filter_app, length_app.
      pose proof (IHt t') as Ht'. unfold get_next_id_for_type.
      destruct (decide (t = t')) as [-> | Hne].
      * rewrite filter_cons_True by done. simpl.
        destruct (length (filter (λ r, r = ReqType t') rs)) as [| k].
        -- rewrite Ht'. simpl. rewrite !lookup_insert_eq. simpl. done.
        -- rewrite Ht'. simpl. rewrite Ht'. simpl. rewrite lookup_insert_eq.
           rewrite wrap_succ. do 2 f_equal. lia.
      * rewrite filter_cons_False, filter_nil by congruence. simpl.
        rewrite Nat.add_0_r, <- IHt.
        destruct (lastfreeidfortype (serve_all rs ID_init) !! t'); simpl;
          by rewrite ?lookup_insert_ne by done.
Qed.

(** X1. Whatever requests a fresh allocator has served, in whatever order,
    the next global id is the number of global requests so far and the next
    id of a type label is the number of requests for that label so far,
    both modulo 2^32: the global counter and the counters of the labels do
    not disturb one another. *)
Theorem allocator_counts_requests rs r :
  (serve r (serve_all rs ID_init)).1 =
  wrap (Z.of_nat (length (filter (λ r', r' = r) rs))).
Proof.
  destruct (serve_all_state rs) as [Hg Ht]. destruct r as [| t]; simpl.
  - done.
  - unfold get_next_id_for_type. cbn [fst]. pose proof (Ht t) as H.
    destruct (length (filter (λ r', r' = ReqType t) rs)); rewrite H.
    + by rewrite lookup_insert_eq.
    + by rewrite H.
Qed.

(** ** Names derived from the type *)

Lemma string_of_uint_digits u : all_digits (NilEmpty.string_of_uint u) = true.
Proof. induction u; simpl; done. Qed.

Lemma to_string_digits n : all_digits (to_string n) = true.
Proof.
  unfold to_string, NilZero.string_of_uint.
  destruct (N.to_uint (Z.to_N n)); try done; apply string_of_uint_digits.
Qed.

Lemma to_string_inj n1 n2 : 0 ≤ n1 → 0 ≤ n2 → to_string n1 = to_string n2 → n1 = n2.
Proof.
  intros H1 H2 Heq. unfold to_string in Heq.
  assert (∀ n, N.to_uint n ≠ Decimal.Nil) as Hnil.
  { intros [| p]; [done |]. apply DecimalPos.Unsigned.to_uint_nonnil. }
  pose proof (NilZero.usu _ (Hnil (Z.to_N n1))) as E1.
  pose proof (NilZero.usu _ (Hnil (Z.to_N n2))) as E2.
  rewrite Heq, E2 in E1. injection E1 as E1.
  apply DecimalN.Unsigned.to_uint_inj in E1. lia.
Qed.

Lemma all_digits_app_sep s sep r :
  all_digits (s +:+ String sep r) = true → is_digit sep = true.
Proof.
  induction s as [| c s IH]; simpl.
  - by intros [? _]%andb_true_iff.
  - intros [_ ?]%andb_true_iff. by apply IH.
Qed.

(** A string ends in at most one way with a separator that is no digit
    followed by digits. *)
Lemma digits_suffix_unique a b sep1 sep2 (t1 t2 : string) :
  is_digit sep1 = false → is_digit sep2 = false →
  all_digits t1 = true → all_digits t2 = true →
  a +:+ String sep1 t1 = b +:+ String sep2 t2 →
  a = b ∧ sep1 = sep2 ∧ t1 = t2.
Proof.
  intros Hs1 Hs2 Hd1 Hd2. revert b.
  induction a as [| c a IH]; intros [| c' b]; simpl; intros [= Hc Heq].
  - by subst.
  - subst. apply all_digits_app_sep in Hd1. congruence.
  - subst. apply all_digits_app_sep in Hd2. congruence.
  - subst. destruct (IH _ Heq) as (-> & -> & ->). done.
Qed.

(** X2. Names derived from the type tell their origin: when two nodes
    named by type get the same name, their type labels are equal, both are
    named by index or both by counter, and the index, respectively the
    counter value, is the same. So nodes with the same label and different
    indices or counter values never share a name, and a name [type#i] is
    never a name [type!n]. *)
Theorem derived_names_injective obj1 id1 obj2 id2 :
  ¬ (network_sap obj1 = true ∧ is_Some (name obj1)) →
  ¬ (network_sap obj2 = true ∧ is_Some (name obj2)) →
  0 ≤ os_index obj1 → 0 ≤ os_index obj2 →
  0 ≤ (get_next_id_for_type (label obj1) id1).1 →
  0 ≤ (get_next_id_for_type (label obj2) id2).1 →
  (get_node_name label obj1 id1).1 = (get_node_name label obj2 id2).1 →
  label obj1 = label obj2 ∧
  named_by_index obj1 = named_by_index obj2 ∧
  if named_by_index obj1 then os_index obj1 = os_index obj2
  else (get_next_id_for_type (label obj1) id1).1 =
       (get_next_id_for_type (label obj2) id2).1.
Proof.
  intros Hn1 Hn2 Hi1 Hi2 Hc1 Hc2.
  rewrite !get_node_name_by_type by done.
  fold (named_by_index obj1). fold (named_by_index obj2).
  destruct (named_by_index obj1), (named_by_index obj2); cbn [fst];
    intros Heq; apply digits_suffix_unique in Heq as (Hl & Hsep & Hd);
    try done; try apply to_string_digits.
  - split_and!; [done | done |]. by apply to_string_inj.
  - split_and!; [done | done |]. by apply to_string_inj.
Qed.

(** ** The size of the output *)

Lemma count_nodes_unfold P obj :
  count_nodes P obj =
  ((if P obj then 1 else 0) +
   foldr (λ c n, count_nodes P c + n) 0 (children obj))%nat.
Proof. by destruct obj. Qed.

Lemma sap_required obj : network_sap obj = true → required_by_type obj = true.
Proof.
  intros Hsap. pose proof Hsap as [Ht _]%network_sap_spec.
  unfold required_by_type. rewrite Ht. by rewrite decide_False, decide_True.
Qed.

Lemma is_pu_required obj : is_pu obj = true → required_by_type obj = true.
Proof.
  intros Ht%bool_decide_eq_true. unfold required_by_type. by rewrite decide_True.
Qed.

Lemma materialized_sizes obj allports st :
  let st2 := (materialized label obj allports st).2 in
  length (json_elems (node_saps st2)) =
    (length (json_elems (node_saps st)) + if network_sap obj then 1 else 0)%nat ∧
  length (json_elems (node_infras st2)) =
    (length (json_elems (node_infras st)) + if network_sap obj then 0 else 1)%nat ∧
  length (filter (λ r, is_ee r = true) (json_elems (node_infras st2))) =
    (length (filter (λ r, is_ee r = true) (json_elems (node_infras st))) +
     if is_pu obj then 1 else 0)%nat ∧
  length (json_elems (node_edges st2)) =
    (length (json_elems (node_edges st)) + length (concat allports))%nat.
Proof.
  unfold materialized. destruct (get_node_name label obj (env_id st)) as [nm i].
  destruct (network_sap obj) eqn:Hsap.
  - cbn [snd node_saps node_infras node_edges].
    rewrite !json_elems_extend, !length_app, length_edges_of.
    assert (is_pu obj = false) as ->.
    { apply bool_decide_eq_false. apply network_sap_spec in Hsap as [-> _]. done. }
    simpl. split_and!; lia.
  - unfold is_pu. destruct (decide (type obj = HWLOC_OBJ_PU)) as [Ht | Ht];
      cbn [snd node_saps node_infras node_edges];
      rewrite !json_elems_extend, filter_app, !length_app, length_edges_of.
    + rewrite bool_decide_eq_true_2, filter_cons_True by done.
      simpl. split_and!; lia.
    + rewrite bool_decide_eq_false_2, filter_cons_False by done.
      simpl. split_and!; lia.
Qed.

Lemma add_children_sizes cs d :
  Forall (λ c, ∀ d st res st',
            wf_env st → add_nodes label c d st = Some (res, st') →
            length (json_elems (node_saps st')) =
              (length (json_elems (node_saps st)) + count_nodes network_sap c)%nat ∧
            length (json_elems (node_infras st')) =
              (length (json_elems (node_infras st)) +
               count_nodes (λ o, survives o && negb (network_sap o)) c)%nat ∧
            length (filter (λ r, is_ee r = true) (json_elems (node_infras st'))) =
              (length (filter (λ r, is_ee r = true) (json_elems (node_infras st))) +
               count_nodes is_pu c)%nat ∧
            (length (json_elems (node_edges st')) + if survives c then 1 else 0)%nat =
              (length (json_elems (node_edges st)) + count_nodes survives c)%nat) cs →
  ∀ st all st1,
    wf_env st → add_children label cs d st = Some (all, st1) →
    length (json_elems (node_saps st1)) =
      (length (json_elems (node_saps st)) +
       foldr (λ c n, count_nodes network_sap c + n) 0 cs)%nat ∧
    length (json_elems (node_infras st1)) =
      (length (json_elems (node_infras st)) +
       foldr (λ c n, count_nodes (λ o, survives o && negb (network_sap o)) c + n)
             0 cs)%nat ∧
    length (filter (λ r, is_ee r = true) (json_elems (node_infras st1))) =
      (length (filter (λ r, is_ee r = true) (json_elems (node_infras st))) +
       foldr (λ c n, count_nodes is_pu c + n) 0 cs)%nat ∧
    (length (json_elems (node_edges st1)) +
     length (filter (λ c, survives c = true) cs))%nat =
      (length (json_elems (node_edges st)) +
       foldr (λ c n, count_nodes survives c + n) 0 cs)%nat.
Proof.
  induction 1 as [| c cs IHc _ IHcs]; intros st all st1 Hwf Hrun.
  - injection Hrun as <- <-. simpl. split_and!; lia.
  - apply add_children_cons_Some in Hrun as (res & s1 & rest & Hc & Hcs & _).
    destruct (IHc _ _ _ _ Hwf Hc) as (H1 & H2 & H3 & H4).
    destruct (add_nodes_wf _ _ _ _ _ Hwf Hc) as (Hwf1 & _).
    destruct (IHcs _ _ _ Hwf1 Hcs) as (G1 & G2 & G3 & G4).
    cbn [foldr]. split_and!; [lia | lia | lia |].
    destruct (survives c) eqn:Hs.
    + rewrite filter_cons_True by done. simpl. lia.
    + rewrite filter_cons_False by (by rewrite Hs). lia.
Qed.

Lemma add_nodes_sizes obj : ∀ d st res st',
  wf_env st → add_nodes label obj d st = Some (res, st') →
  length (json_elems (node_saps st')) =
    (length (json_elems (node_saps st)) + count_nodes network_sap obj)%nat ∧
  length (json_elems (node_infras st')) =
    (length (json_elems (node_infras st)) +
     count_nodes (λ o, survives o && negb (network_sap o)) obj)%nat ∧
  length (filter (λ r, is_ee r = true) (json_elems (node_infras st'))) =
    (length (filter (λ r, is_ee r = true) (json_elems (node_infras st))) +
     count_nodes is_pu obj)%nat ∧
  (length (json_elems (node_edges st')) + if survives obj then 1 else 0)%nat =
    (length (json_elems (node_edges st)) + count_nodes survives obj)%nat.
Proof.
  induction obj as [obj IH] using hwloc_obj_tree_ind. intros d st res st' Hwf Hrun.
  apply add_nodes_inv in Hrun
    as (all & s1 & Hch & Hwf1 & _ & Hstubs & Hlen & Hcases); [| done].
  destruct (add_children_sizes _ d IH _ _ _ Hwf Hch) as (G1 & G2 & G3 & G4).
  rewrite !(count_nodes_unfold _ obj).
  assert (survives obj = negb (is_nil all) || required_by_type obj) as Hs.
  { by rewrite survives_unfold, existsb_survives_filter,
      <- (is_nil_length _ _ Hlen), orb_comm. }
  destruct Hcases as [(Hcond & -> & ->) | (Hcond & -> & ->)]; rewrite Hs, Hcond.
  - apply orb_false_iff in Hcond as [Hnil Hreq].
    assert (network_sap obj = false) as ->.
    { destruct (network_sap obj) eqn:E; [| done].
      apply sap_required in E. congruence. }
    assert (is_pu obj = false) as ->.
    { destruct (is_pu obj) eqn:E; [| done].
      apply is_pu_required in E. congruence. }
    rewrite <- Hlen in G4. destruct all; [| done]. simpl in *.
    split_and!; lia.
  - destruct (materialized_sizes obj all s1) as (M1 & M2 & M3 & M4).
    rewrite (length_concat_single_stubs _ Hstubs), Hlen in M4.
    rewrite M1, M2, M3, M4. cbn [andb].
    destruct (network_sap obj), (is_pu obj); simpl; split_and!; lia.
Qed.

(** X3. The size of the output follows the tree: the SAP collection gets
    one record for each service access point of the tree, the
    infrastructure collection one record for every other surviving node,
    of which the records of type "EE" are one for each processing unit,
    and there is one edge for every surviving node but the root, so that
    a run that writes any node writes one edge less than it writes
    nodes. *)
Theorem output_sizes obj d :
  ∃ res st,
    add_nodes label obj d Env_init = Some (res, st) ∧
    length (json_elems (node_saps st)) = count_nodes network_sap obj ∧
    length (json_elems (node_infras st)) =
      count_nodes (λ o, survives o && negb (network_sap o)) obj ∧
    length (filter (λ r, is_ee r = true) (json_elems (node_infras st))) =
      count_nodes is_pu obj ∧
    (length (json_elems (node_edges st)) + if survives obj then 1 else 0)%nat =
      count_nodes survives obj ∧
    (survives obj = true →
     S (length (json_elems (node_edges st))) =
     (length (json_elems (node_saps st)) + length (json_elems (node_infras st)))%nat).
Proof.
  destruct (add_nodes_total obj d Env_init wf_env_init) as (res & st & Hrun & _).
  destruct (add_nodes_sizes obj d Env_init res st wf_env_init Hrun)
    as (H1 & H2 & H3 & H4).
  exists res, st. simpl in *. split_and!; try done.
  intros Hs. rewrite Hs in H4. rewrite H1, H2.
  assert (∀ o, count_nodes survives o =
               (count_nodes network_sap o +
                count_nodes (λ o, survives o && negb (network_sap o)) o)%nat) as Hsplit.
  { clear. intros o. induction o as [o IH] using hwloc_obj_tree_ind.
    rewrite !(count_nodes_unfold _ o).
    assert (foldr (λ c n, count_nodes survives c + n)%nat 0%nat (children o) =
            (foldr (λ c n, count_nodes network_sap c + n)%nat 0%nat (children o) +
             foldr (λ c n, count_nodes (λ o, survives o && negb (network_sap o)) c + n)%nat
                   0%nat (children o))%nat) as ->.
    { induction IH as [| c cs Hc _ IHcs]; simpl; [done |]. rewrite Hc, IHcs. lia. }
    destruct (network_sap o) eqn:Hsap.
    - rewrite survives_unfold, (sap_required _ Hsap). simpl. lia.
    - destruct (survives o); simpl; lia. }
  rewrite <- Hsplit. lia.
Qed.

(** ** The ports of the edges *)

Lemma extends_has_port st st' n p : extends st st' → has_port st n p → has_port st' n p.
Proof. intros Hext (r & Hr & H). exists r. eauto using extends_node_records. Qed.

Lemma extends_ports_listed st st' e :
  extends st st' → ports_listed st e → ports_listed st' e.
Proof.
  intros Hext [(n1 & p1 & ? & ? & ?) (n2 & p2 & ? & ? & ?)].
  split; eexists _, _; eauto using extends_has_port.
Qed.

Lemma materialized_has_ports obj allports st p :
  p ∈ src_ports_of (lastfreeid (env_id st)) (length (concat allports)) ++
      [wrap (lastfreeid (env_id st) + 2 * Z.of_nat (length (concat allports)))] →
  has_port (materialized label obj allports st).2 (given_name label obj st) p.
Proof.
  intros Hp. pose proof (get_node_name_lastfreeid obj (env_id st)) as Hlf.
  unfold materialized, given_name, has_port, node_records.
  destruct (get_node_name label obj (env_id st)) as [nm i]. simpl in Hlf.
  rewrite Hlf.
  destruct (network_sap obj); [| destruct (decide (type obj = HWLOC_OBJ_PU))];
    cbn [fst snd node_saps node_infras]; rewrite !json_elems_extend.
  - eexists (sap_json nm _). split_and!; [| done |].
    + apply elem_of_app. left. apply elem_of_app. right. constructor.
    + rewrite json_field_ports_sap. by apply list_elem_of_fmap_2.
  - eexists (ee_json nm _). split_and!; [| done |].
    + apply elem_of_app. right. apply elem_of_app. right. constructor.
    + rewrite json_field_ports_ee. by apply list_elem_of_fmap_2.
  - eexists (switch_json nm _). split_and!; [| done |].
    + apply elem_of_app. right. apply elem_of_app. right. constructor.
    + rewrite json_field_ports_switch. by apply list_elem_of_fmap_2.
Qed.

Lemma edges_of_elem_ports node_name c stubs e :
  e ∈ edges_of node_name c stubs →
  ∃ k stub, stubs !! k = Some stub ∧
    e = edge_json (wrap (c + 2 * Z.of_nat k)) node_name
                  (wrap (c + 2 * Z.of_nat k + 1)) stub.
Proof.
  unfold edges_of. intros (k & Hk)%list_elem_of_lookup_1.
  rewrite list_lookup_imap in Hk.
  destruct (stubs !! k) as [stub |] eqn:Hstub; [| done].
  injection Hk as <-. by exists k, stub.
Qed.

Lemma add_children_ports cs d :
  Forall (λ c, ∀ d st res st',
            wf_env st → Forall (ports_listed st) (json_elems (node_edges st)) →
            add_nodes label c d st = Some (res, st') →
            Forall (ports_listed st') (json_elems (node_edges st')) ∧
            ∀ ports stub, res = Some ports → stub ∈ ports →
                          has_port st' stub.2 stub.1) cs →
  ∀ st all st1,
    wf_env st → Forall (ports_listed st) (json_elems (node_edges st)) →
    add_children label cs d st = Some (all, st1) →
    Forall (ports_listed st1) (json_elems (node_edges st1)) ∧
    ∀ stub, stub ∈ concat all → has_port st1 stub.2 stub.1.
Proof.
  induction 1 as [| c cs IHc _ IHcs]; intros st all st1 Hwf Hinv Hrun.
  - injection Hrun as <- <-. split; [done |]. intros stub Hstub.
    by apply elem_of_nil in Hstub.
  - apply add_children_cons_Some in Hrun as (res & s1 & rest & Hc & Hcs & ->).
    destruct (IHc _ _ _ _ Hwf Hinv Hc) as [Hinv1 Hres].
    destruct (add_nodes_wf _ _ _ _ _ Hwf Hc) as (Hwf1 & _).
    destruct (IHcs _ _ _ Hwf1 Hinv1 Hcs) as [Hinv2 Hrest].
    destruct (add_children_wf _ _ _ _ _ Hwf1 Hcs) as (_ & Hext & _).
    split; [done |]. intros stub Hstub.
    destruct res as [ports |]; [| by apply Hrest].
    simpl in Hstub. apply elem_of_app in Hstub as [Hstub | Hstub].
    + eapply extends_has_port; [done |]. by eapply Hres.
    + by apply Hrest.
Qed.

Lemma add_nodes_ports obj : ∀ d st res st',
  wf_env st → Forall (ports_listed st) (json_elems (node_edges st)) →
  add_nodes label obj d st = Some (res, st') →
  Forall (ports_listed st') (json_elems (node_edges st')) ∧
  ∀ ports stub, res = Some ports → stub ∈ ports → has_port st' stub.2 stub.1.
Proof.
  induction obj as [obj IH] using hwloc_obj_tree_ind.
  intros d st res st' Hwf Hinv Hrun.
  apply add_nodes_inv in Hrun
    as (all & s1 & Hch & Hwf1 & _ & _ & _ & [(_ & -> & ->) | (_ & -> & ->)]);
    [| | done].
  { destruct (add_children_ports _ d IH _ _ _ Hwf Hinv Hch) as [Hinv1 _].
    by split. }
  destruct (add_children_ports _ d IH _ _ _ Hwf Hinv Hch) as [Hedges Hstubs].
  pose proof (materialized_extends obj all s1) as Hext.
  destruct (materialized_records obj all s1) as (_ & _ & _ & _ & Hnew).
  pose proof (materialized_has_ports obj all s1) as Hports.
  rewrite materialized_result.
  set (st2 := (materialized label obj all s1).2) in *.
  set (nm := given_name label obj s1) in *.
  set (c := lastfreeid (env_id s1)) in *.
  split.
  - rewrite Hnew. apply Forall_app. split.
    + eapply Forall_impl; [done |]. intros e. by apply extends_ports_listed.
    + apply Forall_forall. intros e (k & stub & Hk & ->)%edges_of_elem_ports.
      split; eexists _, _; (split; [done |]); (split; [done |]).
      * apply Hports. apply elem_of_app. left.
        apply list_elem_of_lookup_2 with k. unfold src_ports_of.
        rewrite list_lookup_fmap, lookup_seq_lt; [done |].
        by eapply lookup_lt_Some.
      * eapply extends_has_port; [done |]. apply Hstubs.
        by eapply list_elem_of_lookup_2.
  - intros ports stub [= <-] Hstub. apply list_elem_of_singleton in Hstub as ->.
    apply Hports. apply elem_of_app. right. by left.
Qed.

(** X4. No edge of the output has a dangling end: its source port is in
    the port list of a node record with the name of its source node, its
    destination port in the port list of a node record with the name of its
    destination node; and the port a run returns is listed by a record
    with the name it returns. *)
Theorem edge_ports_are_listed obj d :
  ∃ res st,
    add_nodes label obj d Env_init = Some (res, st) ∧
    (∀ e, e ∈ json_elems (node_edges st) →
       ∃ sn sp dn dp rs rd,
         json_get "src_node" e = Some (JString sn) ∧
         json_get "src_port" e = Some (JUInt sp) ∧
         json_get "dst_node" e = Some (JString dn) ∧
         json_get "dst_port" e = Some (JUInt dp) ∧
         rs ∈ json_elems (node_saps st) ++ json_elems (node_infras st) ∧
         json_get "name" rs = Some (JString sn) ∧
         JObject [("id", JUInt sp)] ∈ json_elems (json_field "ports" rs) ∧
         rd ∈ json_elems (node_saps st) ++ json_elems (node_infras st) ∧
         json_get "name" rd = Some (JString dn) ∧
         JObject [("id", JUInt dp)] ∈ json_elems (json_field "ports" rd)) ∧
    (∀ p n, res = Some [(p, n)] →
       ∃ r, r ∈ json_elems (node_saps st) ++ json_elems (node_infras st) ∧
            json_get "name" r = Some (JString n) ∧
            JObject [("id", JUInt p)] ∈ json_elems (json_field "ports" r)).
Proof.
  destruct (add_nodes_total obj d Env_init wf_env_init) as (res & st & Hrun & _).
  destruct (add_nodes_ports obj d Env_init res st wf_env_init) as [Hedges Hres];
    [done | done |].
  exists res, st. split_and!; [done | |].
  - intros e He. eapply Forall_forall in Hedges as [Hsrc Hdst]; [| done].
    destruct Hsrc as (sn & sp & ? & ? & rs & ? & ? & ?).
    destruct Hdst as (dn & dp & ? & ? & rd & ? & ? & ?).
    by exists sn, sp, dn, dp, rs, rd.
  - intros p n ->. apply (Hres _ (p, n) eq_refl). by left.
Qed.

(** ** Two runs *)

Lemma json_elems_shift k v : json_elems (shift_json k v) = shift_json k <$> json_elems v.
Proof. by destruct v. Qed.

Lemma json_get_shift k key v :
  json_get key (shift_json k v) = shift_json k <$> json_get key v.
Proof.
  destruct v as [| | | | | | l]; try done. simpl.
  induction l as [| [k' y] l IH]; simpl; [done |]. by case_decide.
Qed.

Lemma json_field_shift k key v :
  json_field key (shift_json k v) = shift_json k (json_field key v).
Proof. unfold json_field. rewrite json_get_shift. by destruct (json_get key v). Qed.

Lemma json_extend_shift k v l :
  shift_json k (json_extend v l) = json_extend (shift_json k v) (shift_json k <$> l).
Proof.
  destruct l as [| x l]; [done |]. simpl.
  by rewrite json_elems_shift, fmap_app.
Qed.

Lemma port_ids_shift k v : port_ids (shift_json k v) = shift_json k <$> port_ids v.
Proof.
  unfold port_ids. rewrite json_elems_shift.
  induction (json_elems v) as [| r l IH]; [done |].
  cbn [fmap list_fmap mbind list_bind]. rewrite fmap_app, <- IH.
  f_equal. rewrite json_field_shift, json_elems_shift, <- !list_fmap_compose.
  apply list_fmap_ext. intros i x _. simpl. by rewrite json_field_shift.
Qed.

Lemma edge_ids_shift k v : edge_ids (shift_json k v) = shift_json k <$> edge_ids v.
Proof.
  unfold edge_ids. rewrite json_elems_shift, <- !list_fmap_compose.
  apply list_fmap_ext. intros i x _. simpl. by rewrite json_field_shift.
Qed.

Lemma get_node_name_counter obj id c' :
  get_node_name label obj (mkID c' (lastfreeidfortype id)) =
  ((get_node_name label obj id).1,
   mkID c' (lastfreeidfortype (get_node_name label obj id).2)).
Proof.
  unfold get_node_name, get_next_id_for_type.
  destruct (name obj), (network_sap obj); simpl; try done;
    by destruct (_ && _).
Qed.

Lemma concat_shift_stubs k (all : list NodePorts) :
  concat (shift_ports k <$> all) = shift_stub k <$> concat all.
Proof.
  induction all as [| a all IH]; [done |].
  rewrite fmap_cons. cbn [concat]. by rewrite fmap_app, IH.
Qed.

Lemma wrap_shift z k j : wrap (wrap (z + k) + j) = wrap (wrap (z + j) + k).
Proof. rewrite !wrap_succ. f_equal. lia. Qed.

Lemma src_ports_of_shift k c0 n :
  src_ports_of (wrap (c0 + k)) n = (λ p, wrap (p + k)) <$> src_ports_of c0 n.
Proof.
  unfold src_ports_of. rewrite <- list_fmap_compose.
  apply list_fmap_ext. intros i x _. simpl.
  rewrite <- !Z.add_assoc. apply wrap_shift.
Qed.

Lemma edges_of_shift k nm c0 stubs :
  edges_of nm (wrap (c0 + k)) (shift_stub k <$> stubs) =
  shift_json k <$> edges_of nm c0 stubs.
Proof.
  unfold edges_of. apply list_eq. intros i.
  rewrite list_lookup_fmap, !list_lookup_imap, list_lookup_fmap.
  destruct (stubs !! i) as [[p n] |]; [| done]. simpl. unfold edge_json. simpl.
  rewrite <- !Z.add_assoc. by rewrite !(wrap_shift c0 k).
Qed.

Lemma port_json_shift k (l : list Z) :
  shift_json k <$> (port_json <$> l) = port_json <$> ((λ p, wrap (p + k)) <$> l).
Proof. by rewrite <- !list_fmap_compose. Qed.

Lemma is_nil_fmap {X Y} (f : X → Y) (l : list X) : is_nil (f <$> l) = is_nil l.
Proof. by destruct l. Qed.

Lemma shift_env_wf k st : wf_env st → wf_env (shift_env k st).
Proof.
  intros (Hi & Hs & He & _).
  assert (∀ v, is_array_or_null v → is_array_or_null (shift_json k v)) as H.
  { intros v [-> | [l ->]]; [by left | right; by eexists]. }
  split; [by apply H |]. split; [by apply H |]. split; [by apply H |].
  apply wrap_range.
Qed.

(** A materialization with the counter moved on by [k] writes the same
    records with their ids moved on by [k]. *)
Lemma materialized_shift k obj allports st :
  materialized label obj (shift_ports k <$> allports) (shift_env k st) =
  (shift_ports k <$> (materialized label obj allports st).1,
   shift_env k (materialized label obj allports st).2).
Proof.
  pose proof (get_node_name_lastfreeid obj (env_id st)) as Hlf.
  unfold materialized. cbn [shift_env env_id].
  rewrite get_node_name_counter.
  destruct (get_node_name label obj (env_id st)) as [nm i]. simpl in Hlf.
  cbn [fst snd lastfreeid lastfreeidfortype node_infras node_saps node_edges].
  rewrite Hlf. set (c0 := lastfreeid (env_id st)).
  rewrite concat_shift_stubs, length_fmap.
  set (n := length (concat allports)).
  rewrite edges_of_shift, src_ports_of_shift.
  assert (wrap (wrap (c0 + k) + 2 * Z.of_nat n) = wrap (wrap (c0 + 2 * Z.of_nat n) + k))
    as -> by apply wrap_shift.
  assert (wrap (wrap (c0 + k) + 2 * Z.of_nat n + 1) =
          wrap (wrap (c0 + 2 * Z.of_nat n + 1) + k)) as ->.
  { rewrite <- !Z.add_assoc. apply wrap_shift. }
  assert (∀ l p, port_json <$> (((λ p, wrap (p + k)) <$> l) ++ [wrap (p + k)]) =
                 shift_json k <$> (port_json <$> (l ++ [p]))) as Hports.
  { intros l p. by rewrite port_json_shift, !fmap_app. }
  rewrite Hports.
  destruct (network_sap obj); [| destruct (decide (type obj = HWLOC_OBJ_PU))];
    unfold shift_env; cbn [env_id lastfreeid lastfreeidfortype node_infras
                            node_saps node_edges fst snd];
    by rewrite !json_extend_shift.
Qed.

Lemma add_children_shift k cs d1 d2 :
  Forall (λ c, ∀ d1 d2 st res st',
            wf_env st → add_nodes label c d1 st = Some (res, st') →
            add_nodes label c d2 (shift_env k st) =
              Some (shift_ports k <$> res, shift_env k st')) cs →
  ∀ st all st1,
    wf_env st → add_children label cs d1 st = Some (all, st1) →
    add_children label cs d2 (shift_env k st) =
      Some (shift_ports k <$> all, shift_env k st1).
Proof.
  induction 1 as [| c cs IHc _ IHcs]; intros st all st1 Hwf Hrun.
  - by injection Hrun as <- <-.
  - apply add_children_cons_Some in Hrun as (res & s1 & rest & Hc & Hcs & ->).
    destruct (add_nodes_wf _ _ _ _ _ Hwf Hc) as (Hwf1 & _).
    rewrite add_children_cons.
    rewrite (bind_run _ _ _ _ _ (IHc _ (d2 + 1) _ _ _ Hwf Hc)).
    rewrite (bind_run _ _ _ _ _ (IHcs _ _ _ Hwf1 Hcs)).
    by destruct res.
Qed.

(** Moving the counter on by [k] before a run moves every id the run
    writes on by [k], and changes nothing else; the depth is without
    influence. *)
Lemma add_nodes_shift k obj : ∀ d1 d2 st res st',
  wf_env st → add_nodes label obj d1 st = Some (res, st') →
  add_nodes label obj d2 (shift_env k st) =
    Some (shift_ports k <$> res, shift_env k st').
Proof.
  induction obj as [obj IH] using hwloc_obj_tree_ind.
  intros d1 d2 st res st' Hwf Hrun.
  apply add_nodes_inv in Hrun as (all & s1 & Hch & Hwf1 & _ & _ & _ & Hcases);
    [| done].
  rewrite add_nodes_unfold.
  rewrite (bind_run _ _ _ _ _ (add_children_shift k _ d1 d2 IH _ _ _ Hwf Hch)).
  rewrite is_nil_fmap.
  destruct Hcases as [(-> & -> & ->) | (-> & -> & ->)]; [done |].
  rewrite materialize_run by by apply shift_env_wf.
  by rewrite materialized_shift.
Qed.

Lemma Env_at_shift c k : shift_env k (Env_at c) = Env_at (c + k).
Proof. unfold shift_env, Env_at. simpl. by rewrite wrap_succ. Qed.

Lemma Env_at_zero : Env_at 0 = Env_init.
Proof. done. Qed.

Lemma wf_env_at c : wf_env (Env_at c).
Proof.
  split; [by left |]. split; [by left |]. split; [by left |]. apply wrap_range.
Qed.

(** C9. Two runs on the same tree, each with a new allocator and empty
    collections, write the same structure. With the global counters of the
    two allocators standing at [c1] and [c2] (both at zero in the program),
    and whatever the depth arguments: both runs return; their SAP records
    and their infrastructure records carry the same names in the same
    order; their edges join the same pairs of names in the same order;
    the port ids and edge ids of the second run are, place by place, those
    of the first moved on by [c2 - c1] modulo 2^32, and so is every other
    id in the records and in the ports returned, nothing else differing.
    When the counters start at the same value, as with two new allocators,
    results and collections are equal. *)
Theorem runs_agree obj d1 d2 c1 c2 :
  ∃ res1 st1 res2 st2,
    add_nodes label obj d1 (Env_at c1) = Some (res1, st1) ∧
    add_nodes label obj d2 (Env_at c2) = Some (res2, st2) ∧
    json_field "name" <$> json_elems (node_saps st2) =
      json_field "name" <$> json_elems (node_saps st1) ∧
    json_field "name" <$> json_elems (node_infras st2) =
      json_field "name" <$> json_elems (node_infras st1) ∧
    (λ e, (json_field "src_node" e, json_field "dst_node" e)) <$>
        json_elems (node_edges st2) =
      (λ e, (json_field "src_node" e, json_field "dst_node" e)) <$>
        json_elems (node_edges st1) ∧
    port_ids (node_saps st2) = shift_json (c2 - c1) <$> port_ids (node_saps st1) ∧
    port_ids (node_infras st2) = shift_json (c2 - c1) <$> port_ids (node_infras st1) ∧
    edge_ids (node_edges st2) = shift_json (c2 - c1) <$> edge_ids (node_edges st1) ∧
    res2 = shift_ports (c2 - c1) <$> res1 ∧
    st2 = shift_env (c2 - c1) st1 ∧
    (wrap c1 = wrap c2 → res2 = res1 ∧ st2 = st1).
Proof.
  destruct (add_nodes_total obj d1 (Env_at c1) (wf_env_at c1)) as (res1 & st1 & Hrun1 & _).
  pose proof (add_nodes_shift (c2 - c1) obj d1 d2 _ _ _ (wf_env_at c1) Hrun1) as Hrun2.
  rewrite Env_at_shift in Hrun2. replace (c1 + (c2 - c1)) with c2 in Hrun2 by lia.
  destruct (add_nodes_consistent obj d1 (Env_at c1) res1 st1 (wf_env_at c1))
    as [[Hrecs Hedges] _]; [by split | done |].
  unfold node_records in Hrecs. apply Forall_app in Hrecs as [Hsaps Hinfras].
  assert (∀ l, Forall id_is_name l →
               json_field "name" <$> (shift_json (c2 - c1) <$> l) =
               json_field "name" <$> l) as Hnames.
  { intros l Hl. rewrite <- list_fmap_compose. apply Forall_fmap_ext_1.
    eapply Forall_impl; [exact Hl |]. intros r (n & _ & Hn). simpl.
    rewrite json_field_shift. unfold json_field. by rewrite Hn. }
  exists res1, st1, (shift_ports (c2 - c1) <$> res1), (shift_env (c2 - c1) st1).
  split_and!; try done.
  - cbn [shift_env node_saps]. rewrite json_elems_shift. by apply Hnames.
  - cbn [shift_env node_infras]. rewrite json_elems_shift. by apply Hnames.
  - cbn [shift_env node_edges]. rewrite json_elems_shift, <- list_fmap_compose.
    apply Forall_fmap_ext_1. eapply Forall_impl; [exact Hedges |].
    intros e [(a & Ha & _) (b & Hb & _)]. simpl.
    rewrite !json_field_shift. unfold json_field. by rewrite Ha, Hb.
  - apply port_ids_shift.
  - apply port_ids_shift.
  - apply edge_ids_shift.
  - intros Heq.
    assert (Env_at c2 = Env_at c1) as HE by (unfold Env_at; by rewrite Heq).
    rewrite HE, (add_nodes_depth obj d2 d1), Hrun1 in Hrun2.
    injection Hrun2 as Hres Hst. by rewrite <- Hres, <- Hst.
Qed.

(** ** Connectivity *)

Lemma extends_edge_joins st st' a b :
  extends st st' → edge_joins st a b → edge_joins st' a b.
Proof.
  intros Hext (e & r & rc & sp & He & H1 & H2 & H3 & H4 & Hr & H5 & H6 & H7 &
               Hrc & H8 & H9).
  exists e, r, rc, sp.
  split_and!; try done; try by eapply extends_node_records.
  destruct Hext as (i & s & es & _ & _ & Hes).
  rewrite Hes, json_elems_extend. apply elem_of_app. by left.
Qed.

Lemma stub_at_cons obj d st i q (c : @hwloc_obj A) before sti :
  children obj !! i = Some c →
  add_children label (take i (children obj)) d st = Some (before, sti) →
  stub_at label obj d st (i :: q) = stub_at label c (d + 1) sti q.
Proof. intros Hc Hb. unfold stub_at. simpl. by rewrite Hc, Hb. Qed.

Lemma stub_at_nil obj d st p n st' :
  add_nodes label obj d st = Some (Some [(p, n)], st') →
  stub_at label obj d st [] = Some (p, n).
Proof. intros Hrun. unfold stub_at. simpl. by rewrite Hrun. Qed.

Lemma stub_at_cons_inv obj d st i q stub :
  wf_env st → stub_at label obj d st (i :: q) = Some stub →
  ∃ (c : @hwloc_obj A) before sti,
    children obj !! i = Some c ∧
    add_children label (take i (children obj)) d st = Some (before, sti) ∧
    wf_env sti ∧ stub_at label c (d + 1) sti q = Some stub.
Proof.
  intros Hwf Hstub. unfold stub_at in Hstub. simpl in Hstub.
  destruct (children obj !! i) as [c |] eqn:Hc; [| done].
  destruct (add_children label (take i (children obj)) d st)
    as [[before sti] |] eqn:Hb; [| done].
  exists c, before, sti. split_and!; try done.
  by destruct (add_children_wf _ _ _ _ _ Hwf Hb).
Qed.

Lemma tree_edge_child obj d st stf i (c : @hwloc_obj A) before sti stc q q' :
  children obj !! i = Some c →
  add_children label (take i (children obj)) d st = Some (before, sti) →
  extends stc stf →
  tree_edge label c (d + 1) sti stc q q' →
  tree_edge label obj d st stf (i :: q) (i :: q').
Proof.
  intros Hc Hb Hext (k & ps & cs & -> & Hp & Hcs & Hj).
  exists k, ps, cs. rewrite !(stub_at_cons _ _ _ _ _ _ _ _ Hc Hb).
  split_and!; try done. by eapply extends_edge_joins.
Qed.

(** A call on a node that survives materializes it. *)
Lemma add_nodes_inv_survives obj d st res st' :
  wf_env st → add_nodes label obj d st = Some (res, st') → survives obj = true →
  ∃ allports st1,
    add_children label (children obj) d st = Some (allports, st1) ∧
    wf_env st1 ∧ Forall single_stub allports ∧
    length allports = length (filter (λ c, survives c = true) (children obj)) ∧
    res = Some [(wrap (lastfreeid (env_id st1) +
                       2 * Z.of_nat (length (concat allports))),
                 given_name label obj st1)] ∧
    st' = (materialized label obj allports st1).2.
Proof.
  intros Hwf Hrun Hs.
  apply add_nodes_inv in Hrun
    as (all & s1 & Hch & Hwf1 & _ & Hstubs & Hlen & [(Hcond & _) | (_ & -> & ->)]);
    [| | done].
  { rewrite survives_unfold, existsb_survives_filter,
      <- (is_nil_length _ _ Hlen), orb_comm in Hs. congruence. }
  exists all, s1. by rewrite materialized_result.
Qed.

Lemma materialized_own_record obj allports st :
  ∃ r, r ∈ node_records (materialized label obj allports st).2 ∧
    json_get "name" r = Some (JString (given_name label obj st)) ∧
    ∀ p, p ∈ src_ports_of (lastfreeid (env_id st)) (length (concat allports)) ++
             [wrap (lastfreeid (env_id st) +
                    2 * Z.of_nat (length (concat allports)))] →
         port_json p ∈ json_elems (json_field "ports" r).
Proof.
  pose proof (get_node_name_lastfreeid obj (env_id st)) as Hlf.
  unfold materialized, given_name, node_records.
  destruct (get_node_name label obj (env_id st)) as [nm i]. simpl in Hlf.
  rewrite Hlf.
  destruct (network_sap obj); [| destruct (decide (type obj = HWLOC_OBJ_PU))];
    cbn [fst snd node_saps node_infras]; rewrite !json_elems_extend.
  - eexists (sap_json nm _). split_and!; [| done |].
    + apply elem_of_app. left. apply elem_of_app. right. constructor.
    + intros p Hp. rewrite json_field_ports_sap. by apply list_elem_of_fmap_2.
  - eexists (ee_json nm _). split_and!; [| done |].
    + apply elem_of_app. right. apply elem_of_app. right. constructor.
    + intros p Hp. rewrite json_field_ports_ee. by apply list_elem_of_fmap_2.
  - eexists (switch_json nm _). split_and!; [| done |].
    + apply elem_of_app. right. apply elem_of_app. right. constructor.
    + intros p Hp. rewrite json_field_ports_switch. by apply list_elem_of_fmap_2.
Qed.

(** The edge a materialized node writes for a port of its children joins
    the two. *)
Lemma materialized_edge_joins obj allports st child :
  child ∈ concat allports → has_port st child.2 child.1 →
  edge_joins (materialized label obj allports st).2
    (wrap (lastfreeid (env_id st) + 2 * Z.of_nat (length (concat allports))),
     given_name label obj st) child.
Proof.
  intros (k & Hk)%list_elem_of_lookup_1 Hchild.
  destruct (materialized_own_record obj allports st) as (r & Hr & Hname & Hports).
  destruct (materialized_records obj allports st) as (_ & _ & _ & _ & Hnew).
  apply (extends_has_port _ _ _ _ (materialized_extends obj allports st)) in Hchild
    as (rc & Hrc & Hcname & Hcport).
  set (c := lastfreeid (env_id st)) in *.
  exists (edge_json (wrap (c + 2 * Z.of_nat k)) (given_name label obj st)
                    (wrap (c + 2 * Z.of_nat k + 1)) child),
         r, rc, (wrap (c + 2 * Z.of_nat k + 1)).
  split_and!; try done.
  - rewrite Hnew. apply elem_of_app. right.
    apply list_elem_of_lookup_2 with k. unfold edges_of.
    by rewrite list_lookup_imap, Hk.
  - apply Hports, elem_of_app. left.
    apply list_elem_of_lookup_2 with k. unfold src_ports_of.
    rewrite list_lookup_fmap, lookup_seq_lt; [done |]. by eapply lookup_lt_Some.
  - apply Hports, elem_of_app. right. constructor.
Qed.

Lemma add_nodes_own_port obj d st p n st' :
  wf_env st → add_nodes label obj d st = Some (Some [(p, n)], st') →
  has_port st' n p.
Proof.
  intros Hwf Hrun.
  apply add_nodes_inv in Hrun
    as (all & s1 & _ & _ & _ & _ & _ & [(_ & [=] & _) | (_ & Hres & ->)]); [| done].
  rewrite materialized_result in Hres. injection Hres as -> ->.
  apply materialized_has_ports, elem_of_app. right. constructor.
Qed.

Lemma survives_at pos : ∀ obj o,
  node_at obj pos = Some o → survives o = true → survives obj = true.
Proof.
  induction pos as [| i q IH]; intros obj o Hat Hs.
  - by injection Hat as <-.
  - simpl in Hat. destruct (children obj !! i) as [c |] eqn:Hc; [| done].
    rewrite survives_unfold. apply orb_true_iff. right.
    apply existsb_exists. exists c. split; [| by eapply IH].
    apply list_elem_of_In. by eapply list_elem_of_lookup_2.
Qed.

(** Every node that survives is materialized by the run, and a path of
    parent-child edges of the output leads to it from the root. *)
Lemma survivors_joined pos : ∀ obj d st res st' o,
  wf_env st → add_nodes label obj d st = Some (res, st') →
  node_at obj pos = Some o → survives o = true →
  (∃ stub, stub_at label obj d st pos = Some stub ∧ has_port st' stub.2 stub.1) ∧
  rtsc (tree_edge label obj d st st') [] pos.
Proof.
  induction pos as [| i q IH]; intros obj d st res st' o Hwf Hrun Hat Hs.
  - injection Hat as <-. split; [| done].
    destruct (add_nodes_inv_survives _ _ _ _ _ Hwf Hrun Hs)
      as (all & s1 & _ & _ & _ & _ & -> & _).
    eexists. split; [by eapply stub_at_nil |]. by eapply add_nodes_own_port.
  - pose proof (survives_at _ _ _ Hat Hs) as Hso.
    simpl in Hat. destruct (children obj !! i) as [c |] eqn:Hc; [| done].
    pose proof (survives_at _ _ _ Hat Hs) as Hsc.
    pose proof Hrun as Hrun0.
    destruct (add_nodes_inv_survives _ _ _ _ _ Hwf Hrun Hso)
      as (all & s1 & Hch & Hwf1 & _ & _ & -> & ->).
    destruct (add_children_total (take i (children obj)) d st)
      as (before & sti & Hbefore & Hwfi & _); [| done |].
    { apply Forall_forall. intros x _ d' s. apply add_nodes_total. }
    destruct (add_children_split _ _ _ _ _ _ _ _ _ Hch Hc Hbefore)
      as (resc & sc & rest & Hrunc & Hrest & ->).
    destruct (add_nodes_inv_survives _ _ _ _ _ Hwfi Hrunc Hsc)
      as (allc & sc1 & _ & _ & _ & _ & Hresc & _).
    set (pc := wrap _) in Hresc. set (cn := given_name _ _ _) in Hresc.
    subst resc.
    destruct (add_nodes_wf _ _ _ _ _ Hwfi Hrunc) as (Hwfc & _).
    destruct (add_children_wf _ _ _ _ _ Hwfc Hrest) as (_ & Hext1 & _).
    pose proof (materialized_extends obj (before ++ [(pc, cn)] :: rest) s1) as Hext2.
    destruct (IH c (d + 1) sti _ sc o Hwfi Hrunc Hat Hs)
      as [(stub & Hstub & Hport) Hpath].
    split.
    + exists stub. rewrite (stub_at_cons _ _ _ _ _ _ _ _ Hc Hbefore).
      split; [done |]. eauto using extends_has_port, extends_trans.
    + transitivity [i].
      * apply rtsc_lr. eexists i, _, (pc, cn).
        rewrite (stub_at_cons _ _ _ _ _ _ _ _ Hc Hbefore).
        split_and!; [done | by eapply stub_at_nil | by eapply stub_at_nil |].
        apply materialized_edge_joins.
        -- rewrite concat_app. apply elem_of_app. right. simpl. by left.
        -- eapply extends_has_port; [exact Hext1 |].
           exact (add_nodes_own_port _ _ _ _ _ _ Hwfi Hrunc).
      * eapply (rtsc_congruence (cons i)); [| exact Hpath].
        intros x y. eapply tree_edge_child; eauto using extends_trans.
Qed.

(** *** The upward ports identify the nodes *)

Lemma drawn_children_app cs1 cs2 :
  foldr (λ c n, drawn c + n) 0 (cs1 ++ cs2) =
  foldr (λ c n, drawn c + n) 0 cs1 + foldr (λ c n, drawn c + n) 0 cs2.
Proof. induction cs1 as [| c cs1 IH]; simpl; lia. Qed.

Lemma drawn_children_lookup cs i (c : @hwloc_obj A) :
  cs !! i = Some c →
  foldr (λ c n, drawn c + n) 0 (take i cs) + drawn c ≤
  foldr (λ c n, drawn c + n) 0 cs.
Proof.
  intros Hc. rewrite <- (take_drop_middle cs i c Hc) at 2.
  rewrite drawn_children_app. simpl.
  pose proof (drawn_children_nonneg (drop (S i) cs)). lia.
Qed.

Lemma drawn_children_take_lt cs i j (c : @hwloc_obj A) :
  cs !! i = Some c → (i < j)%nat →
  foldr (λ c n, drawn c + n) 0 (take i cs) + drawn c ≤
  foldr (λ c n, drawn c + n) 0 (take j cs).
Proof.
  intros Hc Hij. replace j with (S i + (j - S i))%nat by lia.
  rewrite <- take_take_drop, (take_S_r _ _ _ Hc), !drawn_children_app. simpl.
  pose proof (drawn_children_nonneg (take (j - S i) (drop (S i) cs))). lia.
Qed.

Lemma drawn_children_le obj :
  foldr (λ c n, drawn c + n) 0 (children obj) ≤ drawn obj.
Proof. rewrite drawn_unfold. destruct (survives obj); lia. Qed.

Lemma add_children_lastfreeid cs d st c0 all st1 :
  wf_env st → lastfreeid (env_id st) = wrap c0 →
  add_children label cs d st = Some (all, st1) →
  lastfreeid (env_id st1) = wrap (c0 + foldr (λ c n, drawn c + n) 0 cs).
Proof.
  intros Hwf Hc0 Hrun.
  by destruct (add_children_ids cs d
                 (proj2 (Forall_forall _ _) (λ x _, add_nodes_ids x))
                 st c0 all st1 Hwf Hc0 Hrun).
Qed.

(** The port a node returns is the last identifier its call draws. *)
Lemma stub_at_root obj d st c0 stub :
  wf_env st → lastfreeid (env_id st) = wrap c0 → 0 ≤ c0 →
  c0 + drawn obj ≤ 2 ^ UINT_WIDTH →
  stub_at label obj d st [] = Some stub →
  stub.1 = c0 + drawn obj - 1 ∧
  foldr (λ c n, drawn c + n) 0 (children obj) < drawn obj.
Proof.
  intros Hwf Hc0 Hpos Hbound Hstub. unfold stub_at in Hstub. simpl in Hstub.
  destruct (add_nodes label obj d st) as [[res st'] |] eqn:Hrun; [| done].
  destruct (survives obj) eqn:Hs.
  2:{ rewrite add_nodes_pruned in Hrun by done. by injection Hrun as <- <-. }
  destruct (add_nodes_inv_survives _ _ _ _ _ Hwf Hrun Hs)
    as (all & s1 & Hch & _ & Hstubs & Hlen & -> & _).
  injection Hstub as <-. cbn [fst].
  rewrite (add_children_lastfreeid _ _ _ _ _ _ Hwf Hc0 Hch).
  rewrite (length_concat_single_stubs _ Hstubs), Hlen.
  rewrite drawn_unfold, Hs in Hbound |- *.
  pose proof (drawn_children_nonneg (children obj)).
  rewrite wrap_succ, wrap_small by lia. lia.
Qed.

Lemma stub_at_range pos : ∀ obj d st c0 stub,
  wf_env st → lastfreeid (env_id st) = wrap c0 → 0 ≤ c0 →
  c0 + drawn obj ≤ 2 ^ UINT_WIDTH →
  stub_at label obj d st pos = Some stub →
  c0 ≤ stub.1 < c0 + drawn obj.
Proof.
  induction pos as [| i q IH]; intros obj d st c0 stub Hwf Hc0 Hpos Hbound Hstub.
  - destruct (stub_at_root _ _ _ _ _ Hwf Hc0 Hpos Hbound Hstub) as [-> Hlt].
    pose proof (drawn_children_nonneg (children obj)). lia.
  - apply stub_at_cons_inv in Hstub as (c & before & sti & Hc & Hb & Hwfi & Hstub);
      [| done].
    pose proof (add_children_lastfreeid _ _ _ _ _ _ Hwf Hc0 Hb) as Hlf.
    pose proof (drawn_children_lookup _ _ _ Hc).
    pose proof (drawn_children_le obj).
    pose proof (drawn_children_nonneg (take i (children obj))).
    apply (IH _ _ _ _ _ Hwfi Hlf) in Hstub; lia.
Qed.

Lemma stub_at_inj pos1 : ∀ pos2 obj d st c0 s1 s2,
  wf_env st → lastfreeid (env_id st) = wrap c0 → 0 ≤ c0 →
  c0 + drawn obj ≤ 2 ^ UINT_WIDTH →
  stub_at label obj d st pos1 = Some s1 →
  stub_at label obj d st pos2 = Some s2 →
  pos1 ≠ pos2 → s1.1 ≠ s2.1.
Proof.
  assert (∀ obj d st c0 s1 s2 j q,
            wf_env st → lastfreeid (env_id st) = wrap c0 → 0 ≤ c0 →
            c0 + drawn obj ≤ 2 ^ UINT_WIDTH →
            stub_at label obj d st [] = Some s1 →
            stub_at label obj d st (j :: q) = Some s2 → s2.1 < s1.1) as Hroot.
  { intros obj d st c0 s1 s2 j q Hwf Hc0 Hpos Hbound H1 H2.
    destruct (stub_at_root _ _ _ _ _ Hwf Hc0 Hpos Hbound H1) as [-> Hlt].
    apply stub_at_cons_inv in H2 as (c & before & sti & Hc & Hb & Hwfi & H2);
      [| done].
    pose proof (add_children_lastfreeid _ _ _ _ _ _ Hwf Hc0 Hb) as Hlf.
    pose proof (drawn_children_lookup _ _ _ Hc).
    pose proof (drawn_children_nonneg (take j (children obj))).
    apply (stub_at_range _ _ _ _ _ _ Hwfi Hlf) in H2; lia. }
  induction pos1 as [| i q1 IH];
    intros [| j q2] obj d st c0 s1 s2 Hwf Hc0 Hpos Hbound H1 H2 Hne.
  - done.
  - pose proof (Hroot _ _ _ _ _ _ _ _ Hwf Hc0 Hpos Hbound H1 H2). lia.
  - pose proof (Hroot _ _ _ _ _ _ _ _ Hwf Hc0 Hpos Hbound H2 H1). lia.
  - apply stub_at_cons_inv in H1 as (c1 & b1 & st1 & Hc1 & Hb1 & Hwf1 & H1);
      [| done].
    apply stub_at_cons_inv in H2 as (c2 & b2 & st2 & Hc2 & Hb2 & Hwf2 & H2);
      [| done].
    pose proof (add_children_lastfreeid _ _ _ _ _ _ Hwf Hc0 Hb1) as Hlf1.
    pose proof (add_children_lastfreeid _ _ _ _ _ _ Hwf Hc0 Hb2) as Hlf2.
    pose proof (drawn_children_lookup _ _ _ Hc1).
    pose proof (drawn_children_lookup _ _ _ Hc2).
    pose proof (drawn_children_le obj).
    pose proof (drawn_children_nonneg (take i (children obj))).
    pose proof (drawn_children_nonneg (take j (children obj))).
    destruct (decide (i = j)) as [-> | Hij].
    + rewrite Hc1 in Hc2. injection Hc2 as <-.
      rewrite Hb1 in Hb2. injection Hb2 as <- <-.
      eapply (IH q2 c1 _ _ _ _ _ Hwf1 Hlf1); [lia | lia | done | done | congruence].
    + apply (stub_at_range _ _ _ _ _ _ Hwf1 Hlf1) in H1; [| lia | lia].
      apply (stub_at_range _ _ _ _ _ _ Hwf2 Hlf2) in H2; [| lia | lia].
      destruct (decide (i < j)%nat).
      * pose proof (drawn_children_take_lt _ _ j _ Hc1). lia.
      * pose proof (drawn_children_take_lt _ _ i _ Hc2). lia.
Qed.

(** C4. Any two required nodes of a topology tree survive: the run
    materializes both, the upward port each returns is listed by a record
    of the output under the node's name, and a path of edges of the output,
    taken as undirected links, leads from one to the other. The nodes are
    told apart by their position in the tree: each step of the path joins
    a node to one of its children, by an edge that ends at the upward port
    of that child and starts at a port of the record that lists the upward
    port of the parent. As long as the run draws no more than 2^32
    identifiers, no two nodes of the tree share their upward port, so that
    such an edge belongs to one parent and one child only. *)
Theorem required_nodes_connected root d res st pos1 o1 pos2 o2 :
  add_nodes label root d Env_init = Some (res, st) →
  node_at root pos1 = Some o1 → required_by_type o1 = true →
  node_at root pos2 = Some o2 → required_by_type o2 = true →
  ∃ stub1 stub2,
    stub_at label root d Env_init pos1 = Some stub1 ∧
    stub_at label root d Env_init pos2 = Some stub2 ∧
    has_port st stub1.2 stub1.1 ∧ has_port st stub2.2 stub2.1 ∧
    rtsc (tree_edge label root d Env_init st) pos1 pos2 ∧
    (drawn root ≤ 2 ^ UINT_WIDTH →
     ∀ q1 q2 s1 s2,
       stub_at label root d Env_init q1 = Some s1 →
       stub_at label root d Env_init q2 = Some s2 →
       q1 ≠ q2 → s1.1 ≠ s2.1).
Proof.
  intros Hrun Hat1 Hr1 Hat2 Hr2.
  assert (∀ o, required_by_type o = true → survives o = true) as Hsurv.
  { intros o Hr. by rewrite survives_unfold, Hr. }
  destruct (survivors_joined _ _ _ _ _ _ _ wf_env_init Hrun Hat1 (Hsurv _ Hr1))
    as [(stub1 & Hstub1 & Hport1) Hpath1].
  destruct (survivors_joined _ _ _ _ _ _ _ wf_env_init Hrun Hat2 (Hsurv _ Hr2))
    as [(stub2 & Hstub2 & Hport2) Hpath2].
  exists stub1, stub2. split_and!; try done.
  - transitivity (@nil nat); [by symmetry | done].
  - intros Hbound q1 q2 s1 s2 H1 H2 Hne.
    by apply (stub_at_inj q1 q2 root d Env_init 0 s1 s2 wf_env_init).
Qed.

(** ** What is already in the collections *)

Lemma graft_wf base st : wf_env base → wf_env st → wf_env (graft base st).
Proof.
  intros (Bi & Bs & Be & _) (_ & _ & _ & Hc).
  split_and!; simpl; try (by apply json_extend_array_or_null); apply Hc.
Qed.

Lemma json_extend_graft b x l :
  json_extend (json_extend b (json_elems x)) l =
  json_extend b (json_elems (json_extend x l)).
Proof. by rewrite json_elems_extend, json_extend_app. Qed.

Lemma materialized_graft base obj allports st :
  materialized label obj allports (graft base st) =
  ((materialized label obj allports st).1,
   graft base (materialized label obj allports st).2).
Proof.
  unfold materialized. cbn [graft env_id].
  destruct (get_node_name label obj (env_id st)) as [nm i].
  destruct (network_sap obj); cbn [fst snd graft env_id node_infras node_saps
    node_edges]; by rewrite !json_extend_graft.
Qed.

Lemma add_children_graft base cs d :
  wf_env base →
  Forall (λ c, ∀ d st res st',
            wf_env st → add_nodes label c d st = Some (res, st') →
            add_nodes label c d (graft base st) = Some (res, graft base st')) cs →
  ∀ st all st1,
    wf_env st → add_children label cs d st = Some (all, st1) →
    add_children label cs d (graft base st) = Some (all, graft base st1).
Proof.
  intros Hbase. induction 1 as [| c cs IHc _ IHcs]; intros st all st1 Hwf Hrun.
  - by injection Hrun as <- <-.
  - apply add_children_cons_Some in Hrun as (res & s1 & rest & Hc & Hcs & ->).
    destruct (add_nodes_wf _ _ _ _ _ Hwf Hc) as (Hwf1 & _).
    rewrite add_children_cons.
    rewrite (bind_run _ _ _ _ _ (IHc _ _ _ _ Hwf Hc)).
    by rewrite (bind_run _ _ _ _ _ (IHcs _ _ _ Hwf1 Hcs)).
Qed.

Lemma add_nodes_graft base obj : ∀ d st res st',
  wf_env base → wf_env st → add_nodes label obj d st = Some (res, st') →
  add_nodes label obj d (graft base st) = Some (res, graft base st').
Proof.
  induction obj as [obj IH] using hwloc_obj_tree_ind.
  intros d st res st' Hbase Hwf Hrun.
  apply add_nodes_inv in Hrun as (all & s1 & Hch & Hwf1 & _ & _ & _ & Hcases);
    [| done].
  assert (add_children label (children obj) d (graft base st) =
          Some (all, graft base s1)) as Hch'.
  { apply add_children_graft; [done | | done | done].
    eapply Forall_impl; [exact IH |]. intros c Hc d' s r s' Hs Hr. by apply Hc. }
  rewrite add_nodes_unfold, (bind_run _ _ _ _ _ Hch').
  destruct Hcases as [(-> & -> & ->) | (-> & -> & ->)]; [done |].
  rewrite materialize_run by (by apply graft_wf).
  by rewrite materialized_graft.
Qed.

(** X5. What a run appends does not depend on what the collections hold:
    started in a state whose collections are arrays, [add_nodes] returns
    the same ports and leaves the same allocator as when started with the
    same allocator and empty collections, and each collection is the old
    one followed by the records of that other run. In particular no record
    already present is changed, moved or removed. *)
Theorem appends_behind_existing_records obj d st :
  wf_env st →
  ∃ res fresh,
    add_nodes label obj d (mkEnv (env_id st) JNull JNull JNull) = Some (res, fresh) ∧
    add_nodes label obj d st =
      Some (res,
            mkEnv (env_id fresh)
                  (json_extend (node_infras st) (json_elems (node_infras fresh)))
                  (json_extend (node_saps st) (json_elems (node_saps fresh)))
                  (json_extend (node_edges st) (json_elems (node_edges fresh)))).
Proof.
  intros Hwf.
  assert (wf_env (mkEnv (env_id st) JNull JNull JNull)) as Hwf0.
  { destruct Hwf as (_ & _ & _ & Hc). split_and!; try (by left); apply Hc. }
  destruct (add_nodes_total obj d _ Hwf0) as (res & fresh & Hrun & _).
  exists res, fresh. split; [done |].
  pose proof (add_nodes_graft st obj d _ res fresh Hwf Hwf0 Hrun) as Hg.
  by destruct st.
Qed.

(** ** Which nodes are materialized *)

Lemma survives_iff_required_below obj :
  survives obj = true ↔
  ∃ pos o, node_at obj pos = Some o ∧ required_by_type o = true.
Proof.
  split.
  - induction obj as [obj IH] using hwloc_obj_tree_ind.
    rewrite survives_unfold. intros [Hreq | Hcs]%orb_true_iff.
    + by exists [], obj.
    + apply existsb_exists in Hcs as (c & Hin & Hc).
      apply list_elem_of_In, list_elem_of_lookup_1 in Hin as [i Hi].
      eapply Forall_lookup_1 in IH; [| done].
      destruct (IH Hc) as (pos & o & Hat & Hreq).
      exists (i :: pos), o. simpl. by rewrite Hi.
  - intros (pos & o & Hat & Hreq). revert obj Hat.
    induction pos as [| i pos IH]; intros obj Hat.
    + injection Hat as ->. by rewrite survives_unfold, Hreq.
    + simpl in Hat. destruct (children obj !! i) as [c |] eqn:Hi; [| done].
      rewrite survives_unfold. apply orb_true_iff. right.
      apply existsb_exists. exists c. split; [| by apply IH].
      apply list_elem_of_In. by eapply list_elem_of_lookup_2.
Qed.

(** X6. A call of [add_nodes] hands a port to its caller exactly when the
    node or one of its descendants, at any depth, is required; any other
    call returns nothing and leaves the state as it was. So a node that is
    not required itself is still written when something required lies
    below it. *)
Theorem returns_port_iff_required_below obj d st :
  wf_env st →
  ∃ res st',
    add_nodes label obj d st = Some (res, st') ∧
    (is_Some res ↔
     ∃ pos o, node_at obj pos = Some o ∧ required_by_type o = true) ∧
    (res = None → st' = st).
Proof.
  intros Hwf.
  destruct (add_nodes_total obj d st Hwf) as (res & st' & Hrun & _ & _ & Hres).
  exists res, st'. split; [done |]. rewrite <- survives_iff_required_below.
  destruct (survives obj).
  - destruct Hres as (ports & -> & _). split; [by split | done].
  - destruct Hres as [-> ->]. split; [| done]. split; [by intros [? [=]] | done].
Qed.

(** ** Naming and the allocator *)

(** X7. Naming a node never draws from the global counter and leaves the
    counters of all other type labels alone; a node named by its own name
    or by its OS index leaves the whole allocator as it was. *)
Theorem naming_footprint obj id :
  lastfreeid (get_node_name label obj id).2 = lastfreeid id ∧
  (∀ t, t ≠ label obj →
        lastfreeidfortype (get_node_name label obj id).2 !! t =
        lastfreeidfortype id !! t) ∧
  ((network_sap obj = true ∧ is_Some (name obj)) ∨ named_by_index obj = true →
   (get_node_name label obj id).2 = id).
Proof.
  split; [apply get_node_name_lastfreeid |].
  unfold get_node_name, get_node_type. fold (named_by_index obj).
  unfold get_next_id_for_type.
  destruct (name obj) as [s |], (network_sap obj), (named_by_index obj);
    cbn [snd]; (split; [intros t Ht | intros [[? [? ?]] | ?]; try done]);
    try done;
    destruct (lastfreeidfortype id !! label obj);
    cbn [lastfreeidfortype]; by rewrite ?lookup_insert_ne by done.
Qed.

(** ** The document *)

Lemma alist_get_set_eq k x l : alist_get k (alist_set k x l) = Some x.
Proof.
  induction l as [| [k' y] l IH]; simpl; [by rewrite decide_True |].
  destruct (String.compare k k') eqn:Hcmp; simpl.
  - by rewrite decide_True.
  - by rewrite decide_True.
  - rewrite decide_False; [done |]. intros ->.
    pose proof (String.compare_antisym k k) as H. by rewrite Hcmp in H.
Qed.

Lemma alist_get_set_ne k k' x l :
  k ≠ k' → alist_get k' (alist_set k x l) = alist_get k' l.
Proof.
  intros Hne. induction l as [| [k0 y] l IH]; simpl; [by rewrite decide_False |].
  destruct (String.compare k k0) eqn:Hcmp; simpl.
  - apply String.compare_eq_iff in Hcmp as <-. by rewrite !decide_False.
  - by rewrite (decide_False (P := k = k')).
  - by rewrite IH.
Qed.

Lemma json_set_members k x v :
  is_object_or_null v →
  ∃ v', json_set k x v = Some v' ∧ is_object_or_null v' ∧
        json_get k v' = Some x ∧ ∀ k', k ≠ k' → json_get k' v' = json_get k' v.
Proof.
  intros [-> | [l ->]]; simpl; eexists; (split; [done |]);
    (split; [right; by eexists |]); simpl.
  - rewrite decide_True by done. split; [done |]. intros k' Hne.
    by rewrite decide_False.
  - split; [apply alist_get_set_eq | intros k' Hne; by apply alist_get_set_ne].
Qed.

Lemma json_set_fails k x v : ¬ is_object_or_null v → json_set k x v = None.
Proof.
  intros Hv. destruct v; try done; destruct Hv; [by left | right; by eexists].
Qed.

(** X8. [add_parameters] writes the host name as "id", "NFFG-" followed
    by the host name as "name" and "1.0" as "version" into a null or object
    value, and leaves every other member of it as it was; on any other
    value it fails. *)
Theorem add_parameters_members nodename root :
  (is_object_or_null root →
   ∃ out, add_parameters nodename root = Some out ∧
     json_get "id" out = Some (JString nodename) ∧
     json_get "name" out = Some (JString ("NFFG-" +:+ nodename)) ∧
     json_get "version" out = Some (JString "1.0") ∧
     ∀ k, k ≠ "id" → k ≠ "name" → k ≠ "version" → json_get k out = json_get k root) ∧
  (¬ is_object_or_null root → add_parameters nodename root = None).
Proof.
  unfold add_parameters. split.
  - intros Hroot.
    destruct (json_set_members "id" (JString nodename) root Hroot)
      as (v1 & -> & Hv1 & Hid & Hrest1).
    destruct (json_set_members "name" (JString ("NFFG-" +:+ nodename)) v1 Hv1)
      as (v2 & E2 & Hv2 & Hname & Hrest2).
    destruct (json_set_members "version" (JString "1.0") v2 Hv2)
      as (v3 & E3 & Hv3 & Hversion & Hrest3).
    cbn [mbind option_bind]. rewrite E2. cbn [mbind option_bind]. rewrite E3.
    exists v3. split_and!; [done | | | done |].
    + by rewrite Hrest3, Hrest2.
    + by rewrite Hrest3.
    + intros k H1 H2 H3. by rewrite Hrest3, Hrest2, Hrest1.
  - intros Hroot. by rewrite json_set_fails.
Qed.

(** X9. [add_topology_tree] returns a document for every tree when it is
    given a null or object value: the document has the members
    "parameters" (id, name and version of the host), "node_saps",
    "node_infras" and "edge_links" (the three collections of the run from
    a fresh allocator), every other member is the one of the value given,
    and a null value yields these four members and no other. Given any
    other value it fails, whatever the tree. *)
Theorem document_members nodename root_obj root :
  (is_object_or_null root →
   ∃ out res st,
     add_topology_tree label nodename root_obj root = Some out ∧
     add_nodes label root_obj 0 Env_init = Some (res, st) ∧
     json_get "parameters" out =
       Some (JObject [("id", JString nodename);
                      ("name", JString ("NFFG-" +:+ nodename));
                      ("version", JString "1.0")]) ∧
     json_get "node_saps" out = Some (node_saps st) ∧
     json_get "node_infras" out = Some (node_infras st) ∧
     json_get "edge_links" out = Some (node_edges st) ∧
     (∀ k, k ≠ "parameters" → k ≠ "node_saps" → k ≠ "node_infras" →
           k ≠ "edge_links" → json_get k out = json_get k root) ∧
     (root = JNull →
      json_keys out = ["edge_links"; "node_infras"; "node_saps"; "parameters"])) ∧
  (¬ is_object_or_null root →
   add_topology_tree label nodename root_obj root = None).
Proof.
  unfold add_topology_tree.
  assert (add_parameters nodename JNull =
          Some (JObject [("id", JString nodename);
                         ("name", JString ("NFFG-" +:+ nodename));
                         ("version", JString "1.0")])) as -> by done.
  cbn [mbind option_bind]. split.
  - intros Hroot.
    destruct (add_nodes_total root_obj 0 Env_init wf_env_init) as (res & st & Hrun & _).
    destruct (json_set_members "parameters"
                (JObject [("id", JString nodename);
                          ("name", JString ("NFFG-" +:+ nodename));
                          ("version", JString "1.0")]) root Hroot)
      as (v1 & E1 & Hv1 & Hp & Hrest1).
    destruct (json_set_members "node_saps" (node_saps st) v1 Hv1)
      as (v2 & E2 & Hv2 & Hs & Hrest2).
    destruct (json_set_members "node_infras" (node_infras st) v2 Hv2)
      as (v3 & E3 & Hv3 & Hi & Hrest3).
    destruct (json_set_members "edge_links" (node_edges st) v3 Hv3)
      as (v4 & E4 & Hv4 & He & Hrest4).
    rewrite E1. cbn [mbind option_bind]. rewrite Hrun. cbn [mbind option_bind].
    rewrite E2. cbn [mbind option_bind]. rewrite E3. cbn [mbind option_bind].
    exists v4, res, st. split_and!; [done | done | | | | done | |].
    + by rewrite Hrest4, Hrest3, Hrest2.
    + by rewrite Hrest4, Hrest3.
    + by rewrite Hrest4.
    + intros k H1 H2 H3 H4. by rewrite Hrest4, Hrest3, Hrest2, Hrest1.
    + intros ->. injection E1 as <-. injection E2 as <-. injection E3 as <-.
      by injection E4 as <-.
  - intros Hroot. by rewrite json_set_fails.
Qed.

(** ** The shape of the records *)

Lemma own_ports_port_list c n :
  port_list (src_ports_of c n ++ [wrap (c + 2 * Z.of_nat n)]).
Proof.
  split; [by destruct (src_ports_of c n) |].
  apply Forall_app. split; [| repeat constructor; apply wrap_range].
  unfold src_ports_of. apply Forall_fmap, Forall_forall. intros k _. apply wrap_range.
Qed.

Lemma materialized_shaped obj allports st :
  output_shaped st → output_shaped (materialized label obj allports st).2.
Proof.
  intros (Hs & Hi & He). unfold materialized, output_shaped.
  destruct (get_node_name label obj (env_id st)) as [nm i].
  assert (Forall edge_record (edges_of nm (lastfreeid i) (concat allports))) as Hnew.
  { apply Forall_forall. intros e (eid & sp & stub & _ & ->)%edges_of_elem.
    by eexists _, _, _, _. }
  pose proof (own_ports_port_list (lastfreeid i) (length (concat allports))) as Hp.
  destruct (network_sap obj); [| destruct (decide (type obj = HWLOC_OBJ_PU))];
    cbn [snd node_saps node_infras node_edges]; rewrite !json_elems_extend;
    split_and!; try done; try (by apply Forall_app);
    apply Forall_app; (split; [done |]); repeat constructor;
    eexists _, _; (split; [exact Hp |]); eauto.
Qed.

Lemma add_children_shaped cs d :
  Forall (λ c, ∀ d st res st',
            wf_env st → output_shaped st →
            add_nodes label c d st = Some (res, st') → output_shaped st') cs →
  ∀ st all st1,
    wf_env st → output_shaped st →
    add_children label cs d st = Some (all, st1) → output_shaped st1.
Proof.
  induction 1 as [| c cs IHc _ IHcs]; intros st all st1 Hwf Hinv Hrun.
  - by injection Hrun as <- <-.
  - apply add_children_cons_Some in Hrun as (res & s1 & rest & Hc & Hcs & _).
    destruct (add_nodes_wf _ _ _ _ _ Hwf Hc) as (Hwf1 & _).
    apply (IHcs s1 rest st1 Hwf1); [exact (IHc _ _ _ _ Hwf Hinv Hc) | done].
Qed.

Lemma add_nodes_shaped obj : ∀ d st res st',
  wf_env st → output_shaped st →
  add_nodes label obj d st = Some (res, st') → output_shaped st'.
Proof.
  induction obj as [obj IH] using hwloc_obj_tree_ind.
  intros d st res st' Hwf Hinv Hrun.
  apply add_nodes_inv in Hrun
    as (all & s1 & Hch & _ & _ & _ & _ & [(_ & -> & ->) | (_ & -> & ->)]);
    [| | done].
  - exact (add_children_shaped _ d IH _ _ _ Hwf Hinv Hch).
  - apply materialized_shaped. exact (add_children_shaped _ d IH _ _ _ Hwf Hinv Hch).
Qed.

(** X10. Every record of the output has the shape of its kind. A SAP
    record has the members id, name and ports and no other; an
    infrastructure record is an "EE" or an "SDN-SWITCH" record with its
    fixed domain, resources and, for "EE", capability list; either lists
    at least one port, and every port is an object with the one member id,
    an unsigned 32-bit number. An edge record has the seven members of an
    edge, with delay 0.1 and bandwidth 1000. *)
Theorem output_records_shaped obj d :
  ∃ res st,
    add_nodes label obj d Env_init = Some (res, st) ∧
    (∀ r, r ∈ json_elems (node_saps st) →
       ∃ n ports, ports ≠ [] ∧ Forall (λ p, 0 ≤ p < 2 ^ UINT_WIDTH) ports ∧
         r = JObject [("id", JString n); ("name", JString n);
                      ("ports", JArray ((λ p, JObject [("id", JUInt p)]) <$> ports))]) ∧
    (∀ r, r ∈ json_elems (node_infras st) →
       ∃ n ports, ports ≠ [] ∧ Forall (λ p, 0 ≤ p < 2 ^ UINT_WIDTH) ports ∧
         (r = ee_json n ((λ p, JObject [("id", JUInt p)]) <$> ports) ∨
          r = switch_json n ((λ p, JObject [("id", JUInt p)]) <$> ports))) ∧
    (∀ e, e ∈ json_elems (node_edges st) →
       ∃ edge_id src_node src_port dst_node dst_port,
         e = JObject [("bandwidth", JInt 1000); ("delay", JReal (1 # 10));
                      ("dst_node", JString dst_node); ("dst_port", JUInt dst_port);
                      ("id", JUInt edge_id); ("src_node", JString src_node);
                      ("src_port", JUInt src_port)]).
Proof.
  destruct (add_nodes_total obj d Env_init wf_env_init) as (res & st & Hrun & _).
  destruct (add_nodes_shaped obj d Env_init res st wf_env_init) as (Hs & Hi & He);
    [by split_and! | done |].
  exists res, st. split_and!; [done | | |].
  - intros r Hr. eapply Forall_forall in Hs as (n & ports & [Hne Hrange] & ->); [| done].
    by exists n, ports.
  - intros r Hr. eapply Forall_forall in Hi as (n & ports & [Hne Hrange] & Hcase); [| done].
    by exists n, ports.
  - intros e Hr. eapply Forall_forall in He as (eid & sn & sp & [dp dn] & ->); [| done].
    by exists eid, sn, sp, dn, dp.
Qed.

(** X11. No identifier is drawn in vain: after a run from a fresh
    allocator the global counter stands at the number of port ids and
    edge ids in the output, modulo 2^32. *)
Theorem counter_counts_output_ids obj d :
  ∃ res st,
    add_nodes label obj d Env_init = Some (res, st) ∧
    lastfreeid (env_id st) =
    wrap (Z.of_nat (length (port_ids (node_saps st) ++ port_ids (node_infras st) ++
                            edge_ids (node_edges st)))).
Proof.
  destruct (add_nodes_total obj d Env_init wf_env_init) as (res & st & Hrun & _).
  destruct (add_nodes_ids obj d Env_init 0 res st wf_env_init eq_refl Hrun)
    as [Hlf Hids].
  exists res, st. split; [done |]. fold (all_ids st).
  rewrite Hids, all_ids_init, Hlf. simpl. unfold ids_from.
  rewrite length_fmap, length_seqZ, Z2Nat.id by apply drawn_nonneg. done.
Qed.

(** ** The counters of the type labels during a run *)

Lemma get_next_id_for_type_counter nodetype id t :
  type_counter (get_next_id_for_type nodetype id).2 t =
  if decide (nodetype = t) then wrap (type_counter id t + 1) else type_counter id t.
Proof.
  unfold get_next_id_for_type, type_counter. cbn [snd lastfreeidfortype].
  destruct (decide (nodetype = t)) as [-> | Hne].
  - rewrite lookup_insert_eq.
    destruct (lastfreeidfortype id !! t) eqn:E; cbn [default].
    + by rewrite E.
    + by rewrite lookup_insert_eq.
  - rewrite lookup_insert_ne by done.
    destruct (lastfreeidfortype id !! nodetype); [done |].
    by rewrite lookup_insert_ne.
Qed.

Lemma get_node_name_type_counter obj id t c0 :
  type_counter id t = wrap c0 →
  type_counter (get_node_name label obj id).2 t =
  wrap (c0 + if named_by_counter obj && bool_decide (label obj = t) then 1 else 0).
Proof.
  intros Hc. unfold named_by_counter.
  destruct (decide (network_sap obj = true ∧ is_Some (name obj))) as [[Hsap Hn] | Hn].
  - destruct Hn as [s Hname]. unfold get_node_name. rewrite Hname, Hsap.
    cbn [snd]. rewrite bool_decide_eq_true_2 by eauto.
    cbn [andb negb]. by rewrite Z.add_0_r.
  - rewrite get_node_name_by_type by done. fold (named_by_index obj).
    assert (network_sap obj && bool_decide (is_Some (name obj)) = false) as ->.
    { apply andb_false_iff. destruct (network_sap obj); [right | by left].
      apply bool_decide_eq_false. tauto. }
    destruct (named_by_index obj); cbn [andb negb snd].
    + by rewrite Z.add_0_r.
    + rewrite get_next_id_for_type_counter.
      destruct (decide (label obj = t)) as [Ht | Ht].
      * by rewrite bool_decide_eq_true_2, Hc, wrap_succ.
      * by rewrite bool_decide_eq_false_2, Z.add_0_r.
Qed.

Lemma materialized_type_counter obj allports st t :
  type_counter (env_id (materialized label obj allports st).2) t =
  type_counter (get_node_name label obj (env_id st)).2 t.
Proof.
  unfold materialized. destruct (get_node_name label obj (env_id st)) as [nm i].
  by destruct (network_sap obj).
Qed.

Lemma add_children_type_counter t cs d :
  Forall (λ c, ∀ d st c0 res st',
            wf_env st → type_counter (env_id st) t = wrap c0 →
            add_nodes label c d st = Some (res, st') →
            type_counter (env_id st') t =
            wrap (c0 + Z.of_nat (count_nodes
                   (λ o, survives o && named_by_counter o &&
                         bool_decide (label o = t)) c))) cs →
  ∀ st c0 all st1,
    wf_env st → type_counter (env_id st) t = wrap c0 →
    add_children label cs d st = Some (all, st1) →
    type_counter (env_id st1) t =
    wrap (c0 + Z.of_nat (foldr (λ c n, count_nodes
             (λ o, survives o && named_by_counter o &&
                   bool_decide (label o = t)) c + n)%nat 0%nat cs)).
Proof.
  induction 1 as [| c cs IHc _ IHcs]; intros st c0 all st1 Hwf Hc0 Hrun.
  - injection Hrun as <- <-. simpl. by rewrite Z.add_0_r.
  - apply add_children_cons_Some in Hrun as (res & s1 & rest & Hc & Hcs & _).
    destruct (add_nodes_wf _ _ _ _ _ Hwf Hc) as (Hwf1 & _).
    rewrite (IHcs _ _ _ _ Hwf1 (IHc _ _ _ _ _ Hwf Hc0 Hc) Hcs).
    cbn [foldr]. f_equal. lia.
Qed.

Lemma add_nodes_type_counter t obj : ∀ d st c0 res st',
  wf_env st → type_counter (env_id st) t = wrap c0 →
  add_nodes label obj d st = Some (res, st') →
  type_counter (env_id st') t =
  wrap (c0 + Z.of_nat (count_nodes
         (λ o, survives o && named_by_counter o && bool_decide (label o = t)) obj)).
Proof.
  induction obj as [obj IH] using hwloc_obj_tree_ind.
  intros d st c0 res st' Hwf Hc0 Hrun.
  apply add_nodes_inv in Hrun
    as (all & s1 & Hch & _ & _ & _ & Hlen & Hcases); [| done].
  pose proof (add_children_type_counter t _ d IH _ _ _ _ Hwf Hc0 Hch) as Hc1.
  rewrite (count_nodes_unfold _ obj).
  assert (survives obj = negb (is_nil all) || required_by_type obj) as ->.
  { by rewrite survives_unfold, existsb_survives_filter,
      <- (is_nil_length _ _ Hlen), orb_comm. }
  destruct Hcases as [(-> & -> & ->) | (-> & -> & ->)]; cbn [andb].
  - rewrite Hc1. f_equal.
  - rewrite materialized_type_counter.
    rewrite (get_node_name_type_counter _ _ _ _ Hc1). f_equal.
    destruct (named_by_counter obj && bool_decide (label obj = t)); lia.
Qed.

(** X12. The counter of a type label counts the surviving nodes of that
    label that are named by counter: after a run from a fresh allocator it
    stands at their number, modulo 2^32. Pruned nodes, and nodes named by
    their own name or by their index, take no number. *)
Theorem type_counters_count_named_nodes obj d :
  ∃ res st,
    add_nodes label obj d Env_init = Some (res, st) ∧
    ∀ t, type_counter (env_id st) t =
         wrap (Z.of_nat (count_nodes
                 (λ o, survives o && named_by_counter o && bool_decide (label o = t))
                 obj)).
Proof.
  destruct (add_nodes_total obj d Env_init wf_env_init) as (res & st & Hrun & _).
  exists res, st. split; [done |]. intros t.
  by rewrite (add_nodes_type_counter t obj d Env_init 0 res st wf_env_init eq_refl Hrun).
Qed.

End Theory.

(** * The sample topologies *)

Lemma survives_full_tree h : survives (full_tree h) = true.
Proof.
  induction h as [| h IH]; [done |].
  change (full_tree (S h))
    with (mk_obj HWLOC_OBJ_GROUP UINT_MAX None () [] [full_tree h; full_tree h]).
  rewrite survives_unfold. cbn [children existsb]. by rewrite IH.
Qed.

Lemma drawn_full_tree h : drawn (full_tree h) = 6 * 2 ^ Z.of_nat h - 5.
Proof.
  induction h as [| h IH]; [done |].
  rewrite Nat2Z.inj_succ, Z.pow_succ_r by lia.
  rewrite drawn_unfold, survives_full_tree.
  change (children (full_tree (S h))) with [full_tree h; full_tree h].
  rewrite !filter_cons_True by apply survives_full_tree.
  rewrite filter_nil. cbn [foldr length]. rewrite IH. lia.
Qed.

(** The claim C3 fails on the full tree of height 30: its run draws
    6 * 2^30 - 5 identifiers, more than an [unsigned int] can tell apart,
    so that some port or edge ids occur twice. *)
Lemma ids_repeat_on_full_tree :
  ∃ res st,
    add_nodes sample_label (full_tree 30) 0 Env_init = Some (res, st) ∧
    ¬ NoDup (port_ids (node_saps st) ++ port_ids (node_infras st) ++
             edge_ids (node_edges st)).
Proof.
  apply ids_repeat_after_overflow. rewrite drawn_full_tree. done.
Qed.

Example sample_run_names :
  node_names sample_run.2 =
  JString <$> ["eth0"; "Bus!0"; "PU#3"; "PU#4"; "Bus!1"; "Machine#0"].
Proof. reflexivity. Qed.

(** The claim C1 fails on a machine with one processing unit: the machine
    is materialized next to "PU#0", and an edge joins the two. *)
Lemma single_pu_yields_two_nodes :
  ∃ res st,
    add_nodes sample_label (sample_machine [sample_pu 0]) 0 Env_init = Some (res, st) ∧
    length (json_elems (node_infras st)) ≠ 1%nat ∧
    json_elems (node_edges st) ≠ [].
Proof. eexists _, _. split; [by vm_compute |]. by split. Qed.

Lemma single_pu_topology_witness :
  ∃ st,
    add_nodes sample_label (sample_machine [sample_pu 0]) 0 Env_init =
      Some (Some [(3, "Machine#0")], st) ∧
    json_elems (node_edges st) = [edge_json 1 "Machine#0" 2 (0, "PU#0")] ∧
    json_elems (node_infras st) =
      [ee_json "PU#0" [port_json 0];
       switch_json "Machine#0" [port_json 2; port_json 3]] ∧
    json_elems (node_saps st) = [].
Proof.
  exact (single_pu_topology sample_label (sample_machine [sample_pu 0])
           (sample_pu 0) eq_refl eq_refl eq_refl eq_refl eq_refl).
Defined.

Lemma pruning_witness :
  survives (sample_bus [sample_bus []]) = false ∧
  add_nodes sample_label (sample_bus [sample_bus []]) 1 sample_run.2 =
    Some (None, sample_run.2) ∧
  add_nodes sample_label (sample_machine []) 0 Env_init = Some (None, Env_init).
Proof.
  split; [reflexivity |]. split.
  - exact (proj1 (pruning sample_label (sample_bus [sample_bus []]) 1 sample_run.2)
             eq_refl).
  - exact (proj1 (proj2 (pruning sample_label (sample_machine []) 0 Env_init)
                    eq_refl eq_refl eq_refl)).
Defined.

Lemma ids_distinct_witness :
  drawn sample_topology ≤ 2 ^ UINT_WIDTH ∧
  ∃ res st,
    add_nodes sample_label sample_topology 0 Env_init = Some (res, st) ∧
    port_ids (node_saps st) ++ port_ids (node_infras st) ++ edge_ids (node_edges st)
      ≡ₚ ids_from 0 (drawn sample_topology) ∧
    NoDup (port_ids (node_saps st) ++ port_ids (node_infras st) ++
           edge_ids (node_edges st)).
Proof.
  assert (drawn sample_topology ≤ 2 ^ UINT_WIDTH) as H by (by vm_compute).
  split; [exact H | exact (ids_distinct sample_label sample_topology 0 H)].
Defined.

Lemma sample_children_run_eq :
  add_children sample_label (children sample_topology) 0 Env_init =
  Some (sample_children_run.1, sample_children_run.2).
Proof. by vm_compute. Defined.

Lemma sample_run_eq :
  add_nodes sample_label sample_topology 0 Env_init = Some (sample_run.1, sample_run.2).
Proof. by vm_compute. Defined.



Lemma node_record_by_class_witness :
  wf_env Env_init ∧
  ∃ p nm st2 rec,
    add_nodes sample_label sample_topology 0 Env_init = Some (Some [(p, nm)], st2) ∧
    node_infras st2 = json_extend (node_infras sample_children_run.2) [rec] ∧
    node_saps st2 = node_saps sample_children_run.2 ∧
    json_get "domain" rec = Some (JString "INTERNAL") ∧
    json_get "type" rec = Some (JString "SDN-SWITCH").
Proof.
  split; [exact wf_env_init |].
  destruct (node_record_by_class sample_label sample_topology 0 Env_init
              sample_children_run.1 sample_children_run.2
              wf_env_init sample_children_run_eq eq_refl)
    as (p & nm & st2 & rec & Hrun & Hinfras & Hsaps & Hdomain & Htype & _).
  exists p, nm, st2, rec. repeat split; assumption.
Defined.

Lemma node_naming_witness :
  get_node_name sample_label sample_nic ID_init = ("eth0", ID_init) ∧
  get_node_name sample_label (sample_pu 3) ID_init = ("PU#3", ID_init) ∧
  (get_node_name sample_label (sample_bus []) ID_init).1 = "Bus!0" ∧
  (get_node_name sample_label (sample_bus [sample_nic])
     (get_node_name sample_label (sample_bus []) ID_init).2).1 = "Bus!1".
Proof.
  split.
  - exact (proj1 (node_naming sample_label sample_nic ID_init) "eth0" eq_refl eq_refl).
  - split.
    + exact (proj1 (proj2 (proj2 (node_naming sample_label (sample_pu 3) ID_init)))
               eq_refl eq_refl eq_refl).
    + exact (proj2 (proj2 (proj2 (proj2
               (node_naming sample_label (sample_bus []) ID_init))))
               (sample_bus [sample_nic])
               (get_node_name sample_label (sample_bus []) ID_init).2
               eq_refl eq_refl eq_refl eq_refl eq_refl eq_refl eq_refl eq_refl).
Defined.


Lemma record_ids_are_names_witness :
  add_nodes sample_label sample_topology 0 Env_init = Some (sample_run.1, sample_run.2) ∧
  (∀ r, r ∈ json_elems (node_saps sample_run.2) ++ json_elems (node_infras sample_run.2) →
        ∃ n, json_get "id" r = Some (JString n) ∧
             json_get "name" r = Some (JString n)) ∧
  (∀ e, e ∈ json_elems (node_edges sample_run.2) →
        ∀ k, k = "src_node" ∨ k = "dst_node" →
        ∃ n r, json_get k e = Some (JString n) ∧
               r ∈ json_elems (node_saps sample_run.2) ++
                   json_elems (node_infras sample_run.2) ∧
               json_get "id" r = Some (JString n) ∧
               json_get "name" r = Some (JString n)).
Proof.
  split; [exact sample_run_eq |].
  exact (record_ids_are_names sample_label sample_topology 0
           sample_run.1 sample_run.2 sample_run_eq).
Defined.

Lemma required_nodes_connected_witness :
  add_nodes sample_label sample_topology 0 Env_init = Some (sample_run.1, sample_run.2) ∧
  node_at sample_topology [0; 0]%nat = Some sample_nic ∧
  node_at sample_topology [1; 1]%nat = Some (sample_pu 4) ∧
  ∃ stub1 stub2,
    stub_at sample_label sample_topology 0 Env_init [0; 0]%nat = Some stub1 ∧
    stub_at sample_label sample_topology 0 Env_init [1; 1]%nat = Some stub2 ∧
    has_port sample_run.2 stub1.2 stub1.1 ∧ has_port sample_run.2 stub2.2 stub2.1 ∧
    rtsc (tree_edge sample_label sample_topology 0 Env_init sample_run.2)
         [0; 0]%nat [1; 1]%nat ∧
    (drawn sample_topology ≤ 2 ^ UINT_WIDTH →
     ∀ q1 q2 s1 s2,
       stub_at sample_label sample_topology 0 Env_init q1 = Some s1 →
       stub_at sample_label sample_topology 0 Env_init q2 = Some s2 →
       q1 ≠ q2 → s1.1 ≠ s2.1).
Proof.
  split; [exact sample_run_eq |]. split; [reflexivity |]. split; [reflexivity |].
  exact (required_nodes_connected sample_label sample_topology 0
           sample_run.1 sample_run.2 [0; 0]%nat sample_nic [1; 1]%nat (sample_pu 4)
           sample_run_eq eq_refl eq_refl eq_refl eq_refl).
Defined.

Example sample_stubs :
  stub_at sample_label sample_topology 0 Env_init [0; 0]%nat = Some (0, "eth0") ∧
  stub_at sample_label sample_topology 0 Env_init [0]%nat = Some (3, "Bus!0") ∧
  stub_at sample_label sample_topology 0 Env_init [] = Some (15, "Machine#0") ∧
  stub_at sample_label sample_topology 0 Env_init [1]%nat = Some (10, "Bus!1") ∧
  stub_at sample_label sample_topology 0 Env_init [1; 1]%nat = Some (5, "PU#4") ∧
  stub_at sample_label sample_topology 0 Env_init [2]%nat = None.
Proof. by vm_compute. Qed.

(** The run on the sample topology with the counter five draws away from
    wrapping around: the names and the edges between them as in the run
    from zero, the ids moved on and wrapped. *)
Example sample_run_near_wrap :
  ∃ st,
    add_nodes sample_label sample_topology 7 (Env_at 4294967291) =
      Some (Some [(10, "Machine#0")], st) ∧
    json_field "name" <$> json_elems (node_saps st) ++ json_elems (node_infras st) =
      node_names sample_run.2 ∧
    edge_ids (node_edges st) = JUInt <$> [4294967292; 1; 3; 6; 8] ∧
    edge_ids (node_edges sample_run.2) = JUInt <$> [1; 6; 8; 11; 13].
Proof. eexists. split; [by vm_compute |]. by vm_compute. Qed.

Lemma wf_env_sample_run : wf_env sample_run.2.
Proof.
  split; [right; eexists; reflexivity |].
  split; [right; eexists; reflexivity |].
  split; [right; eexists; reflexivity | by vm_compute].
Defined.

Lemma derived_names_injective_witness :
  (get_node_name sample_label (sample_bus []) ID_init).1 =
    (get_node_name sample_label (sample_bus [sample_nic]) ID_init).1 ∧
  sample_label (sample_bus []) = sample_label (sample_bus [sample_nic]) ∧
  named_by_index (sample_bus []) = named_by_index (sample_bus [sample_nic]) ∧
  (get_next_id_for_type (sample_label (sample_bus [])) ID_init).1 =
    (get_next_id_for_type (sample_label (sample_bus [sample_nic])) ID_init).1.
Proof.
  split; [reflexivity |].
  apply (derived_names_injective sample_label (sample_bus []) ID_init
           (sample_bus [sample_nic]) ID_init).
  - intros [H _]. discriminate H.
  - intros [H _]. discriminate H.
  - by vm_compute.
  - by vm_compute.
  - by vm_compute.
  - by vm_compute.
  - reflexivity.
Defined.

Lemma appends_behind_existing_records_witness :
  wf_env sample_run.2 ∧
  ∃ res fresh,
    add_nodes sample_label (sample_pu 7) 0
      (mkEnv (env_id sample_run.2) JNull JNull JNull) = Some (res, fresh) ∧
    add_nodes sample_label (sample_pu 7) 0 sample_run.2 =
      Some (res,
            mkEnv (env_id fresh)
                  (json_extend (node_infras sample_run.2) (json_elems (node_infras fresh)))
                  (json_extend (node_saps sample_run.2) (json_elems (node_saps fresh)))
                  (json_extend (node_edges sample_run.2) (json_elems (node_edges fresh)))).
Proof.
  split; [exact wf_env_sample_run |].
  exact (appends_behind_existing_records sample_label (sample_pu 7) 0 sample_run.2
           wf_env_sample_run).
Defined.

Lemma returns_port_iff_required_below_witness :
  wf_env Env_init ∧
  ∃ res st',
    add_nodes sample_label sample_topology 0 Env_init = Some (res, st') ∧
    (is_Some res ↔
     ∃ pos o, node_at sample_topology pos = Some o ∧ required_by_type o = true) ∧
    (res = None → st' = Env_init).
Proof.
  split; [exact wf_env_init |].
  exact (returns_port_iff_required_below sample_label sample_topology 0 Env_init
           wf_env_init).
Defined.

Example sample_output_sizes :
  count_nodes network_sap sample_topology = 1%nat ∧
  count_nodes is_pu sample_topology = 2%nat ∧
  count_nodes survives sample_topology = 6%nat ∧
  length (json_elems (node_edges sample_run.2)) = 5%nat.
Proof. by vm_compute. Qed.
